(** * Verification of util/udt_util.h (user-defined timestamp size handling)

    Shallow embedding of the timestamp-size WAL record codec, of the
    per-key timestamp reconciliation, of the [TimestampRecoveryHandler]
    replaying a write batch, and of [HandleWriteBatchTimestampSizeDifference].

    Failed [assert]s are modelled as a distinguished outcome ([AssertFail]):
    the development follows the debug build, where they abort. *)

From Stdlib Require Import NArith ZArith Lia.
From Stdlib Require Import Strings.Byte.
From stdpp Require Import base list gmap strings pretty.

(* ------------------------------------------------------------------ *)
(** ** Execution with assertions *)

(** A computation of the C++ code that either completes with a value or
    stops on a failed [assert]. *)
Inductive Exec (A : Type) : Type :=
| Done (a : A)
| AssertFail.
Arguments Done {A} a.
Arguments AssertFail {A}.

Global Instance Exec_ret : MRet Exec := fun _ a => Done a.
Global Instance Exec_bind : MBind Exec := fun _ _ f m =>
  match m with Done a => f a | AssertFail => AssertFail end.

(** [assert(b)] *)
Definition cassert (b : bool) : Exec unit :=
  if b then Done () else AssertFail.

(* ------------------------------------------------------------------ *)
(** ** Status *)

Inductive Status : Type :=
| OK
| Corruption (msg : string)
| InvalidArgument (msg : string).

Definition status_ok (s : Status) : bool :=
  match s with OK => true | _ => false end.

(* ------------------------------------------------------------------ *)
(** ** Bytes and fixed-width coding (util/coding.h, little-endian) *)

Abbreviation bytes := (list Byte.byte).

(** Low byte of an unsigned value: [static_cast<char>(v & 0xff)]. *)
Definition byte_of_N (n : N) : Byte.byte :=
  match Byte.of_N (N.land n 255) with Some b => b | None => Byte.x00 end.

Definition EncodeFixed32 (v : N) : bytes :=
  [byte_of_N v; byte_of_N (N.shiftr v 8);
   byte_of_N (N.shiftr v 16); byte_of_N (N.shiftr v 24)].

Definition EncodeFixed16 (v : N) : bytes :=
  [byte_of_N v; byte_of_N (N.shiftr v 8)].

(** [PutFixed32(dst, v)] appends to the string [dst]. *)
Definition PutFixed32 (dst : bytes) (v : N) : bytes := dst ++ EncodeFixed32 v.
Definition PutFixed16 (dst : bytes) (v : N) : bytes := dst ++ EncodeFixed16 v.

(** [DecodeFixed32] on a little-endian host ([memcpy] of four bytes). *)
Definition DecodeFixed32 (b0 b1 b2 b3 : Byte.byte) : N :=
  (Byte.to_N b0 + Byte.to_N b1 * 2^8 + Byte.to_N b2 * 2^16
   + Byte.to_N b3 * 2^24)%N.

Definition DecodeFixed16 (b0 b1 : Byte.byte) : N :=
  (Byte.to_N b0 + Byte.to_N b1 * 2^8)%N.

(** [GetFixed32(Slice* input, uint32_t* value)]: fails when fewer than
    four bytes remain, otherwise decodes them and advances the slice. *)
Definition GetFixed32 (input : bytes) : option (N * bytes) :=
  match input with
  | b0 :: b1 :: b2 :: b3 :: rest => Some (DecodeFixed32 b0 b1 b2 b3, rest)
  | _ => None
  end.

Definition GetFixed16 (input : bytes) : option (N * bytes) :=
  match input with
  | b0 :: b1 :: rest => Some (DecodeFixed16 b0 b1, rest)
  | _ => None
  end.

(** [static_cast<uint16_t>] of a [size_t]. *)
Definition to_uint16 (v : N) : N := (v mod 2^16)%N.

(** [static_cast<int>] of a [size_t] (two's complement wrap, 32-bit int). *)
Definition to_int32 (v : Z) : Z :=
  let m := (v mod 2^32)%Z in if (m <? 2^31)%Z then m else (m - 2^32)%Z.

(** [std::endl] written to an [ostringstream]. *)
Definition endl : string := String (Ascii.ascii_of_nat 10) EmptyString.

(* ------------------------------------------------------------------ *)
(** ** UserDefinedTimestampSizeRecord *)

Module UDTRecord.

(** The record: [std::vector<std::pair<uint32_t, size_t>> cf_to_ts_sz_]. *)
Record UserDefinedTimestampSizeRecord : Type := mkRecord {
  cf_to_ts_sz_ : list (N * N)
}.

(** Default constructor: empty pair list. *)
Definition empty_record : UserDefinedTimestampSizeRecord := mkRecord [].

(** 4 bytes for column family id, 2 bytes for user-defined timestamp size. *)
Definition kSizePerColumnFamily : N := 4 + 2.

Fixpoint EncodeTo_loop (pairs : list (N * N)) (dst : bytes) : Exec bytes :=
  match pairs with
  | [] => Done dst
  | (cf_id, ts_sz) :: rest =>
      _ ← cassert (negb (ts_sz =? 0)%N);
      EncodeTo_loop rest (PutFixed16 (PutFixed32 dst cf_id) (to_uint16 ts_sz))
  end.

(** [EncodeTo(std::string* dst)]: appends to [dst]. *)
Definition EncodeTo (r : UserDefinedTimestampSizeRecord) (dst : bytes)
  : Exec bytes :=
  EncodeTo_loop (cf_to_ts_sz_ r) dst.

Definition decode_entry_error : string :=
  "Error decoding user-defined timestamp size record entry".

(** The [for] loop of [DecodeFrom], run [n] times; it threads the slice
    and the pair vector, and returns early on a failed read. *)
Fixpoint DecodeFrom_loop (n : nat) (src : bytes) (acc : list (N * N))
  : Status * list (N * N) * bytes :=
  match n with
  | O => (OK, acc, src)
  | S n' =>
      match GetFixed32 src with
      | None => (Corruption decode_entry_error, acc, src)
      | Some (cf_id, src1) =>
          match GetFixed16 src1 with
          | None => (Corruption decode_entry_error, acc, src1)
          | Some (ts_sz, src2) => DecodeFrom_loop n' src2 (acc ++ [(cf_id, ts_sz)])
          end
      end
  end.

Definition length_error (total_size : N) : string :=
  "User-defined timestamp size record length: " +:+ pretty total_size
  +:+ " is not a multiple of " +:+ pretty kSizePerColumnFamily +:+ endl.

(** [DecodeFrom(Slice* src)]: returns the status, the record after the
    call and the remaining slice. *)
Definition DecodeFrom (r : UserDefinedTimestampSizeRecord) (src : bytes)
  : Status * UserDefinedTimestampSizeRecord * bytes :=
  let total_size := N.of_nat (length src) in
  if negb (total_size mod kSizePerColumnFamily =? 0)%N then
    (Corruption (length_error total_size), r, src)
  else
    let num_of_entries :=
      to_int32 (Z.of_N (total_size / kSizePerColumnFamily)) in
    let '(s, pairs, rest) :=
      DecodeFrom_loop (Z.to_nat num_of_entries) src (cf_to_ts_sz_ r) in
    (s, mkRecord pairs, rest).

(** [DebugString()]: for each pair, one line written to an
    [ostringstream]; integers are printed in decimal. *)
Definition DebugString (r : UserDefinedTimestampSizeRecord) : string :=
  fold_left (fun oss '(cf_id, ts_sz) =>
      oss +:+ "Column family: " +:+ pretty cf_id
          +:+ ", user-defined timestamp size: " +:+ pretty ts_sz +:+ endl)
    (cf_to_ts_sz_ r) "".

End UDTRecord.

(* ------------------------------------------------------------------ *)
(** ** Codec lemmas *)

Module CodecFacts.
Import UDTRecord.

Lemma byte_of_N_to_N (n : N) : Byte.to_N (byte_of_N n) = (n mod 256)%N.
Proof.
  unfold byte_of_N.
  assert (Hl : N.land n 255 = (n mod 256)%N)
    by (change 255%N with (N.ones 8); rewrite N.land_ones; reflexivity).
  rewrite Hl.
  pose proof (Byte.to_of_N_option_map (n mod 256)) as Hm.
  assert (Hlt : (n mod 256 <= 255)%N)
    by (pose proof (N.mod_lt n 256 ltac:(lia)); lia).
  apply N.leb_le in Hlt. rewrite Hlt in Hm.
  destruct (Byte.of_N (n mod 256)) eqn:E; simpl in Hm; congruence.
Qed.

Lemma DecodeFixed32_Encode (v : N) :
  (v < 2^32)%N ->
  match EncodeFixed32 v with
  | [b0; b1; b2; b3] => DecodeFixed32 b0 b1 b2 b3 = v
  | _ => False
  end.
Proof.
  intros Hv. unfold EncodeFixed32, DecodeFixed32.
  rewrite !byte_of_N_to_N, !N.shiftr_div_pow2. simpl (2 ^ _)%N.
  zify; Z.to_euclidean_division_equations; lia.
Qed.

Lemma DecodeFixed16_Encode (v : N) :
  (v < 2^16)%N ->
  match EncodeFixed16 v with
  | [b0; b1] => DecodeFixed16 b0 b1 = v
  | _ => False
  end.
Proof.
  intros Hv. unfold EncodeFixed16, DecodeFixed16.
  rewrite !byte_of_N_to_N, !N.shiftr_div_pow2. simpl (2 ^ _)%N.
  zify; Z.to_euclidean_division_equations; lia.
Qed.

Lemma DecodeFixed16_bound (b0 b1 : Byte.byte) : (DecodeFixed16 b0 b1 < 2^16)%N.
Proof.
  unfold DecodeFixed16.
  pose proof (Byte.to_N_bounded b0). pose proof (Byte.to_N_bounded b1).
  simpl (2 ^ _)%N. lia.
Qed.

(** The six bytes [EncodeTo] writes for one pair. *)
Definition entry_bytes (p : N * N) : bytes :=
  EncodeFixed32 p.1 ++ EncodeFixed16 (to_uint16 p.2).

(** The pair [DecodeFrom] reads back from [entry_bytes p]. *)
Definition trunc_pair (p : N * N) : N * N := (p.1, to_uint16 p.2).

Definition ts_nonzero (p : N * N) : bool := negb (p.2 =? 0)%N.

Lemma EncodeTo_loop_spec (pairs : list (N * N)) (dst : bytes) :
  EncodeTo_loop pairs dst =
  if forallb ts_nonzero pairs
  then Done (dst ++ concat (map entry_bytes pairs)) else AssertFail.
Proof.
  revert dst. induction pairs as [|[cf ts] pairs IH]; intros dst; simpl.
  - by rewrite app_nil_r.
  - unfold ts_nonzero at 1; simpl.
    destruct (ts =? 0)%N; simpl; [reflexivity|].
    rewrite IH. unfold PutFixed16, PutFixed32, entry_bytes. simpl.
    by rewrite <- !app_assoc.
Qed.

Lemma entry_bytes_length (pairs : list (N * N)) :
  length (concat (map entry_bytes pairs)) = 6 * length pairs.
Proof.
  induction pairs as [|p pairs IH]; [done|].
  cbn [map concat]. rewrite length_app, IH.
  unfold entry_bytes, EncodeFixed32, EncodeFixed16. cbn [length app]. lia.
Qed.

Lemma DecodeFrom_loop_entries (k : nat) (pairs : list (N * N)) (rest : bytes)
    (acc : list (N * N)) :
  Forall (fun p => (p.1 < 2^32)%N) pairs -> k <= length pairs ->
  DecodeFrom_loop k (concat (map entry_bytes pairs) ++ rest) acc =
  (OK, acc ++ take k (map trunc_pair pairs),
   concat (map entry_bytes (drop k pairs)) ++ rest).
Proof.
  revert pairs acc. induction k as [|k IH]; intros pairs acc Hv Hk.
  - by rewrite app_nil_r.
  - destruct pairs as [|[cf ts] pairs]; simpl in Hk; [lia|].
    inversion Hv as [|? ? Hcf Hv']; subst. simpl in Hcf.
    pose proof (DecodeFixed32_Encode cf Hcf) as H32.
    assert (H16 : (to_uint16 ts < 2^16)%N)
      by (unfold to_uint16; apply N.mod_lt; lia).
    pose proof (DecodeFixed16_Encode _ H16) as H16'.
    unfold EncodeFixed32 in H32. unfold EncodeFixed16 in H16'.
    unfold entry_bytes at 1, EncodeFixed32, EncodeFixed16. simpl.
    rewrite H32, H16'.
    rewrite IH by (done || lia). by rewrite <- app_assoc.
Qed.

Lemma DecodeFrom_loop_app (n : nat) (src : bytes) (P acc : list (N * N)) :
  DecodeFrom_loop n src (P ++ acc) =
  let '(s, l, r) := DecodeFrom_loop n src acc in (s, P ++ l, r).
Proof.
  revert src acc. induction n as [|n IH]; intros src acc; simpl; [done|].
  destruct (GetFixed32 src) as [[cf src1]|]; [|done].
  destruct (GetFixed16 src1) as [[ts src2]|]; [|done].
  rewrite <- app_assoc. apply IH.
Qed.

Lemma to_int32_small (x : Z) : (0 <= x < 2^31)%Z -> to_int32 x = x.
Proof.
  intros Hx. unfold to_int32.
  rewrite Z.mod_small by lia.
  destruct (Z.ltb_spec x (2^31)); lia.
Qed.

Lemma to_int32_le (n : nat) : Z.to_nat (to_int32 (Z.of_nat n)) <= n.
Proof.
  unfold to_int32.
  pose proof (Z.mod_le (Z.of_nat n) (2^32) ltac:(lia) ltac:(lia)).
  destruct (Z.ltb_spec (Z.of_nat n mod 2^32) (2^31)); lia.
Qed.

(** Decoding what [EncodeTo] wrote: the loop runs [to_int32 (n)] times
    for a record of [n] pairs. *)
Lemma DecodeFrom_EncodeTo (P r : list (N * N)) (b : bytes) :
  Forall (fun p => (p.1 < 2^32)%N) r ->
  EncodeTo (mkRecord r) [] = Done b ->
  DecodeFrom (mkRecord P) b =
  (OK, mkRecord (P ++ take (Z.to_nat (to_int32 (Z.of_nat (length r))))
                               (map trunc_pair r)),
   concat (map entry_bytes
     (drop (Z.to_nat (to_int32 (Z.of_nat (length r)))) r))).
Proof.
  intros Hv He. unfold EncodeTo in He. simpl in He.
  rewrite EncodeTo_loop_spec in He.
  destruct (forallb ts_nonzero r); [|discriminate].
  injection He as <-. simpl.
  unfold DecodeFrom. rewrite entry_bytes_length.
  replace (N.of_nat (6 * length r)) with (6 * N.of_nat (length r))%N by lia.
  unfold kSizePerColumnFamily. simpl (4 + 2)%N.
  rewrite (N.mul_comm 6), N.Div0.mod_mul, N.div_mul by lia. simpl negb.
  cbv beta iota zeta.
  rewrite nat_N_Z.
  rewrite <- (app_nil_r (concat (map entry_bytes r))).
  rewrite DecodeFrom_loop_entries by (done || apply to_int32_le).
  by rewrite !app_nil_r.
Qed.

End CodecFacts.

Module CodecClaims.
Import UDTRecord CodecFacts.

Lemma forallb_repeat {A} (f : A -> bool) (x : A) (n : nat) :
  f x = true -> forallb f (repeat x n) = true.
Proof. intros Hx. induction n as [|n IH]; simpl; [done|]. by rewrite Hx, IH. Qed.

Lemma DecodeFrom_loop_bound (n : nat) (src : bytes) (acc : list (N * N))
    (s : Status) (l : list (N * N)) (rest : bytes) :
  DecodeFrom_loop n src acc = (s, l, rest) ->
  Forall (fun p => (p.2 < 2^16)%N) acc ->
  Forall (fun p => (p.2 < 2^16)%N) l.
Proof.
  revert src acc. induction n as [|n IH]; intros src acc Hd Hacc; simpl in Hd.
  - by injection Hd as <- <- <-.
  - destruct src as [|b0 [|b1 [|b2 [|b3 src1]]]]; simpl in Hd;
      try (injection Hd as <- <- <-; done).
    destruct src1 as [|c0 [|c1 src2]]; simpl in Hd;
      try (injection Hd as <- <- <-; done).
    apply (IH _ _ Hd). apply Forall_app. split; [done|].
    constructor; [apply DecodeFixed16_bound|constructor].
Qed.

(** Round trip for records of fewer than 2^31 pairs. *)
Lemma DecodeFrom_EncodeTo_small (r : list (N * N)) (b : bytes) :
  Forall (fun p => (p.1 < 2^32)%N /\ (p.2 < 2^16)%N) r ->
  (Z.of_nat (length r) < 2^31)%Z ->
  EncodeTo (mkRecord r) [] = Done b ->
  DecodeFrom empty_record b = (OK, mkRecord r, []).
Proof.
  intros Hv Hn He. unfold empty_record.
  rewrite (DecodeFrom_EncodeTo [] r b) by (done || (eapply Forall_impl; [exact Hv|]; intros p []; done)).
  rewrite to_int32_small by lia. rewrite Nat2Z.id, take_ge, drop_ge by (rewrite ?length_map; lia).
  assert (Hm : map trunc_pair r = r).
  { clear Hn He. induction r as [|[cf ts] r IH]; [done|].
    inversion Hv as [|? ? [Hc Ht] Hv']; subst.
    cbn [map]. unfold trunc_pair at 1, to_uint16. simpl.
    rewrite N.mod_small by done. by rewrite IH. }
  by rewrite Hm.
Qed.

Lemma mkRecord_empty_inv (l : list (N * N)) : mkRecord l = empty_record -> l = [].
Proof. intros H. by injection H. Qed.

(** The record of 2^31 pairs [(0, 1)]. *)
Definition big_record : list (N * N) := repeat (0%N, 1%N) (N.to_nat (2^31)).

(** A byte string of [6 * 2^31] zero bytes. *)
Definition big_input : bytes := repeat Byte.x00 (N.to_nat (6 * 2^31)).

(** ** C3 *)
(** C3 (failing input): the record of 2^31 pairs (0, 1) satisfies every
    hypothesis of the round-trip claim (cf ids below 2^32, sizes in
    [1, 65535]), [EncodeTo] writes it, yet [DecodeFrom] into a fresh record
    returns OK with no pair at all: the loop bound
    [static_cast<int>(total_size / 6)] wraps to [-2^31]. *)
Theorem C3_roundtrip_fails_2pow31 :
  Forall (fun p => (p.1 < 2^32)%N /\ (0 < p.2 <= 65535)%N) big_record /\
  exists b, EncodeTo (mkRecord big_record) [] = Done b /\
    DecodeFrom empty_record b = (OK, empty_record, b) /\
    mkRecord big_record <> empty_record.
Proof.
  split.
  { unfold big_record. apply Forall_forall. intros p Hp.
    apply list_elem_of_In, repeat_spec in Hp. subst p. simpl. lia. }
  assert (Hne : forallb ts_nonzero big_record = true)
    by (apply forallb_repeat; reflexivity).
  assert (Hlen : length big_record = N.to_nat (2^31))
    by (unfold big_record; apply repeat_length).
  exists (concat (map entry_bytes big_record)). split.
  { unfold EncodeTo. cbn [cf_to_ts_sz_]. rewrite EncodeTo_loop_spec, Hne. reflexivity. }
  split.
  - unfold empty_record. rewrite (DecodeFrom_EncodeTo [] big_record).
    + rewrite Hlen, N_nat_Z.
      replace (Z.to_nat (to_int32 (Z.of_N (2^31)))) with 0%nat by reflexivity.
      rewrite take_0, drop_0. reflexivity.
    + unfold big_record. apply Forall_forall. intros p Hp.
      apply list_elem_of_In, repeat_spec in Hp. subst p. simpl. lia.
    + unfold EncodeTo. cbn [cf_to_ts_sz_]. rewrite EncodeTo_loop_spec, Hne. reflexivity.
  - intros H. apply mkRecord_empty_inv, (f_equal length) in H.
    rewrite Hlen in H. apply (f_equal N.of_nat) in H.
    rewrite N2Nat.id in H. discriminate H.
Qed.

(** ** C4 *)
(** C4 (failing input): on [6 * 2^31] zero bytes, a length that is a
    multiple of 6, [DecodeFrom] returns OK without reading any group,
    instead of the [2^31] pairs the claim requires. *)
Theorem C4_decode_multiple_of_6_reads_nothing :
  (N.of_nat (length big_input) mod 6 = 0)%N /\
  (N.of_nat (length big_input) / 6 = 2^31)%N /\
  DecodeFrom empty_record big_input = (OK, empty_record, big_input).
Proof.
  assert (Hl : N.of_nat (length big_input) = (6 * 2^31)%N)
    by (unfold big_input; rewrite repeat_length, N2Nat.id; reflexivity).
  rewrite Hl. split; [reflexivity|]. split; [reflexivity|].
  unfold DecodeFrom. rewrite Hl.
  replace (Z.to_nat (to_int32 (Z.of_N (6 * 2^31 / kSizePerColumnFamily))))
    with 0%nat by reflexivity.
  reflexivity.
Qed.

Lemma forallb_ts_nonzero (l : list (N * N)) :
  forallb ts_nonzero l = true <-> Forall (fun p => p.2 <> 0%N) l.
Proof.
  induction l as [|[cf ts] l IH]; simpl.
  - split; [constructor|done].
  - unfold ts_nonzero at 1; simpl. rewrite andb_true_iff, IH, Forall_cons.
    destruct (N.eqb_spec ts 0); simpl; intuition congruence.
Qed.

Lemma DecodeFrom_fresh_bound (src : bytes) (s : Status)
    (r : UserDefinedTimestampSizeRecord) (rest : bytes) :
  DecodeFrom empty_record src = (s, r, rest) ->
  Forall (fun p => (p.2 < 2^16)%N) (cf_to_ts_sz_ r).
Proof.
  unfold DecodeFrom. destruct (negb _).
  - intros H. injection H as _ <- _. constructor.
  - destruct (DecodeFrom_loop _ _ _) as [[s' l] rest'] eqn:E.
    intros H. injection H as _ <- _. simpl.
    eapply DecodeFrom_loop_bound; [exact E|constructor].
Qed.

Lemma map_trunc_pair_id (r : list (N * N)) :
  map trunc_pair r = r -> Forall (fun p => (p.2 < 2^16)%N) r.
Proof.
  induction r as [|[cf ts] r IH]; intros H; [constructor|].
  simpl in H. injection H as Hts Hr. constructor; [|by apply IH].
  simpl. rewrite <- Hts. unfold to_uint16. apply N.mod_lt. lia.
Qed.

(** Six zero bytes: one group with column family 0 and size 0. *)
Definition zero_group : bytes := repeat Byte.x00 6.

(** ** C5 *)
(** C5 (counterexample): a successful [DecodeFrom] does not always yield
    strictly positive timestamp sizes: six zero bytes decode, with status
    OK, to the pair (0, 0). *)
Lemma C5_decoded_zero_size :
  exists r rest, DecodeFrom empty_record zero_group = (OK, r, rest) /\
    Exists (fun p => ~ (0 < p.2)%N) (cf_to_ts_sz_ r).
Proof.
  exists (mkRecord [(0%N, 0%N)]), []. split; [reflexivity|].
  constructor. simpl. lia.
Qed.

(** C5 (amended): positivity of the timestamp sizes is a precondition that
    only [EncodeTo] checks, by assertion: it completes exactly when every
    size is nonzero.  [DecodeFrom] does not check it: every size it
    decodes lies in [0, 65535], and a zero size is accepted. *)
Theorem C5_positivity_checked_only_on_encode :
  (forall r dst, EncodeTo r dst <> AssertFail <->
     Forall (fun p => p.2 <> 0%N) (cf_to_ts_sz_ r)) /\
  (forall src s r rest, DecodeFrom empty_record src = (s, r, rest) ->
     Forall (fun p => (p.2 < 2^16)%N) (cf_to_ts_sz_ r)) /\
  DecodeFrom empty_record zero_group = (OK, mkRecord [(0%N, 0%N)], []).
Proof.
  split; [|split].
  - intros r dst. unfold EncodeTo. rewrite EncodeTo_loop_spec, <- forallb_ts_nonzero.
    destruct (forallb ts_nonzero _); split; try done; congruence.
  - apply DecodeFrom_fresh_bound.
  - reflexivity.
Qed.

(** ** C9 *)
(** C9: [DecodeFrom] appends the decoded pairs to those the record already
    holds; so decoding into a record holding [P] reproduces what a fresh
    record would hold exactly when [P] is empty. *)
Theorem C9_decode_appends (P : list (N * N)) (src : bytes) (s : Status)
    (Q : list (N * N)) (rest : bytes) :
  DecodeFrom empty_record src = (s, mkRecord Q, rest) ->
  DecodeFrom (mkRecord P) src = (s, mkRecord (P ++ Q), rest) /\
  (P ++ Q = Q <-> P = []).
Proof.
  intros H. split.
  - revert H. unfold DecodeFrom. destruct (negb _).
    + intros H. injection H as <- HQ <-.
      subst Q. by rewrite app_nil_r.
    + cbn [cf_to_ts_sz_ empty_record].
      rewrite <- (app_nil_r P) at 1. rewrite DecodeFrom_loop_app.
      destruct (DecodeFrom_loop _ _ []) as [[s' l] rest'].
      intros H. by injection H as <- <- <-.
  - split; [|intros ->; done].
    intros HPQ. apply (f_equal length) in HPQ. rewrite length_app in HPQ.
    destruct P; [done|simpl in HPQ; lia].
Qed.

Lemma C9_witness :
  DecodeFrom empty_record zero_group = (OK, mkRecord [(0%N, 0%N)], []) /\
  DecodeFrom (mkRecord [(7%N, 8%N)]) zero_group =
    (OK, mkRecord ([(7%N, 8%N)] ++ [(0%N, 0%N)]), []) /\
  ([(7%N, 8%N)] ++ [(0%N, 0%N)] = [(0%N, 0%N)] <-> [(7%N, 8%N)] = []).
Proof.
  split; [reflexivity|].
  apply (C9_decode_appends [(7%N, 8%N)] zero_group OK [(0%N, 0%N)] []).
  reflexivity.
Defined.

(** ** C10 *)
(** C10: [EncodeTo] (whose assertion requires nonzero sizes) writes six
    bytes per pair, the fixed 32-bit encoding of the column family id and
    the fixed 16-bit encoding of the size modulo 2^16; so a record holding
    a size above 65535 is not restored by decoding what was written. *)
Theorem C10_encode_truncates (r : list (N * N)) (dst : bytes) :
  Forall (fun p => p.2 <> 0%N) r ->
  EncodeTo (mkRecord r) dst =
    Done (dst ++ concat (map (fun p => EncodeFixed32 p.1 ++
                                       EncodeFixed16 (p.2 mod 65536)) r)) /\
  Forall (fun p => length (EncodeFixed32 p.1 ++
                           EncodeFixed16 (p.2 mod 65536)) = 6) r /\
  (Forall (fun p => (p.1 < 2^32)%N) r ->
   forall p b, p ∈ r -> (65535 < p.2)%N ->
   EncodeTo (mkRecord r) [] = Done b ->
   cf_to_ts_sz_ (DecodeFrom empty_record b).1.2 <> r).
Proof.
  intros Hnz. split; [|split].
  - unfold EncodeTo. cbn [cf_to_ts_sz_]. rewrite EncodeTo_loop_spec.
    apply forallb_ts_nonzero in Hnz. rewrite Hnz. reflexivity.
  - apply Forall_forall. intros p _. reflexivity.
  - intros Hcf p b Hp Hbig He.
    unfold empty_record. rewrite (DecodeFrom_EncodeTo [] r b Hcf He). simpl.
    intros Heq.
    assert (Hk : Z.to_nat (to_int32 (Z.of_nat (length r))) >= length r).
    { apply (f_equal length) in Heq. rewrite length_take, length_map in Heq. lia. }
    rewrite take_ge in Heq by (rewrite length_map; lia).
    apply map_trunc_pair_id in Heq.
    rewrite Forall_forall in Heq. specialize (Heq p Hp). lia.
Qed.

Lemma C10_witness :
  Forall (fun p => p.2 <> 0%N) [(1%N, 65537%N)] /\
  EncodeTo (mkRecord [(1%N, 65537%N)]) [] =
    Done ([] ++ concat (map (fun p => EncodeFixed32 p.1 ++
                                      EncodeFixed16 (p.2 mod 65536))
                            [(1%N, 65537%N)])) /\
  Forall (fun p => length (EncodeFixed32 p.1 ++
                           EncodeFixed16 (p.2 mod 65536)) = 6) [(1%N, 65537%N)] /\
  (Forall (fun p => (p.1 < 2^32)%N) [(1%N, 65537%N)] ->
   forall p b, p ∈ [(1%N, 65537%N)] -> (65535 < p.2)%N ->
   EncodeTo (mkRecord [(1%N, 65537%N)]) [] = Done b ->
   cf_to_ts_sz_ (DecodeFrom empty_record b).1.2 <> [(1%N, 65537%N)]).
Proof.
  assert (H : Forall (fun p => p.2 <> 0%N) [(1%N, 65537%N)])
    by (repeat constructor; simpl; lia).
  split; [exact H|]. apply (C10_encode_truncates [(1%N, 65537%N)] [] H).
Defined.

End CodecClaims.

(* ------------------------------------------------------------------ *)
(** ** Write batches (the external [WriteBatch] abstraction) *)

Module Batch.

(** One record of a write batch, as delivered to a [WriteBatch::Handler]. *)
Inductive Entry : Type :=
| Put (cf : N) (key value : bytes)
| Delete (cf : N) (key : bytes)
| SingleDelete (cf : N) (key : bytes)
| DeleteRange (cf : N) (begin_key end_key : bytes)
| Merge (cf : N) (key value : bytes)
| PutBlobIndex (cf : N) (key value : bytes)
| BeginPrepare (unprepare : bool)
| EndPrepare (xid : bytes)
| Commit (xid : bytes)
| CommitWithTimestamp (xid ts : bytes)
| Rollback (xid : bytes)
| Noop (empty_batch : bool).

Abbreviation WriteBatch := (list Entry).

(** The column family a mutation refers to; [None] for the markers. *)
Definition entry_cf (e : Entry) : option N :=
  match e with
  | Put cf _ _ | Delete cf _ | SingleDelete cf _ | DeleteRange cf _ _
  | Merge cf _ _ | PutBlobIndex cf _ _ => Some cf
  | _ => None
  end.

Definition is_mutation (e : Entry) : bool :=
  match entry_cf e with Some _ => true | None => false end.

(** The user keys a mutation carries. *)
Definition entry_keys (e : Entry) : list bytes :=
  match e with
  | Put _ k _ | Delete _ k | SingleDelete _ k | Merge _ k _
  | PutBlobIndex _ k _ => [k]
  | DeleteRange _ b e => [b; e]
  | _ => []
  end.

(** The column families referenced by a batch, in order. *)
Definition referenced_cfs (b : WriteBatch) : list N := omap entry_cf b.

End Batch.

(* ------------------------------------------------------------------ *)
(** ** Reconciliation rule and recovery handler *)

Module Recovery.
Import Batch.

(** The action the rule selects for a (recorded, running) size pair. *)
Inductive Action : Type :=
| NoOp
| PadMinTimestamp (running_sz : N)
| StripTimestamp (recorded_sz : N)
| Unreconcilable.

(** Modelled from the spec: the rule table of ReconcileTimestampDiscrepancy
    (udt_util.cc, not in this tree), as documented in udt_util.h lines 95-102
    and in the spec, section 4.2. *)
Definition rule (recorded_sz running_sz : N) : Action :=
  if (recorded_sz =? 0)%N then
    if (running_sz =? 0)%N then NoOp else PadMinTimestamp running_sz
  else if (running_sz =? 0)%N then StripTimestamp recorded_sz
  else if (recorded_sz =? running_sz)%N then NoOp
  else Unreconcilable.

Definition inconsistent_msg (cf recorded_sz running_sz : N) : string :=
  "Column family: " +:+ pretty cf +:+ " recorded timestamp size: "
  +:+ pretty recorded_sz +:+ ", running timestamp size: " +:+ pretty running_sz.

Definition short_key_msg : string :=
  "User key shorter than the recorded timestamp size".

(** The minimum timestamp of a given size: all zero bytes. *)
Definition min_timestamp (sz : N) : bytes := repeat Byte.x00 (N.to_nat sz).

(** Modelled from the spec (section 4.2): the per-key reconciliation; [inr
    None] keeps the key, [inr (Some k)] replaces it by [k]. *)
Definition reconcile (cf recorded_sz running_sz : N) (user_key : bytes)
  : Status + option bytes :=
  match rule recorded_sz running_sz with
  | NoOp => inr None
  | PadMinTimestamp sz => inr (Some (user_key ++ min_timestamp sz))
  | StripTimestamp sz =>
      if (length user_key <? N.to_nat sz)%nat then inl (Corruption short_key_msg)
      else inr (Some (take (length user_key - N.to_nat sz) user_key))
  | Unreconcilable =>
      inl (InvalidArgument (inconsistent_msg cf recorded_sz running_sz))
  end.

(** The handler's own state; the two maps are references it holds. *)
Record TimestampRecoveryHandler : Type := mkHandler {
  new_batch_ : option WriteBatch;  (** [std::unique_ptr<WriteBatch>] *)
  handler_valid_ : bool;
  new_batch_diff_from_orig_batch_ : bool
}.

Section Handler.
Context (running_ts_sz record_ts_sz : gmap N N).

(** Modelled from the spec (section 4.3): the constructor starts from an
    empty new batch, valid, unchanged. *)
Definition init_handler : TimestampRecoveryHandler := mkHandler (Some []) true false.

(** Modelled from the spec (sections 4.3, 4.4, and the comment of
    [TimestampSizeConsistencyMode]): [ReconcileTimestampDiscrepancy] checks
    that the handler is still valid; an entry of a dropped column family
    (absent from [running_ts_sz]) is copied as is; otherwise the recorded
    size (0 when absent) and the running size select the rule.  Returns
    the status, the key to write and whether it differs from the input. *)
Definition ReconcileTimestampDiscrepancy (h : TimestampRecoveryHandler)
    (cf : N) (key : bytes) : Exec (Status * bytes * bool) :=
  _ ← cassert (handler_valid_ h);
  match running_ts_sz !! cf with
  | None => Done (OK, key, false)
  | Some running_sz =>
      let recorded_sz := default 0%N (record_ts_sz !! cf) in
      match reconcile cf recorded_sz running_sz key with
      | inl s => Done (s, key, false)
      | inr None => Done (OK, key, false)
      | inr (Some new_key) => Done (OK, new_key, true)
      end
  end.

(** Appending one record to the new batch. *)
Definition add_to_new_batch (h : TimestampRecoveryHandler) (e : Entry)
    (changed : bool) : TimestampRecoveryHandler :=
  mkHandler (option_map (fun b => b ++ [e]) (new_batch_ h)) (handler_valid_ h)
    (new_batch_diff_from_orig_batch_ h || changed).

(** Modelled from the spec (section 4.3): the callbacks of a one-key
    mutation; [mk] rebuilds the record from the reconciled key. *)
Definition one_key_cf (h : TimestampRecoveryHandler) (cf : N) (key : bytes)
    (mk : bytes -> Entry) : Exec (Status * TimestampRecoveryHandler) :=
  '(s, new_key, changed) ← ReconcileTimestampDiscrepancy h cf key;
  if status_ok s then Done (OK, add_to_new_batch h (mk new_key) changed)
  else Done (s, h).

Definition PutCF h cf key value := one_key_cf h cf key (fun k => Put cf k value).
Definition DeleteCF h cf key := one_key_cf h cf key (fun k => Delete cf k).
Definition SingleDeleteCF h cf key := one_key_cf h cf key (fun k => SingleDelete cf k).
Definition MergeCF h cf key value := one_key_cf h cf key (fun k => Merge cf k value).
Definition PutBlobIndexCF h cf key value :=
  one_key_cf h cf key (fun k => PutBlobIndex cf k value).

(** Modelled from the spec (section 4.3): both keys of a range deletion
    are reconciled independently. *)
Definition DeleteRangeCF (h : TimestampRecoveryHandler) (cf : N)
    (begin_key end_key : bytes) : Exec (Status * TimestampRecoveryHandler) :=
  '(s1, new_begin, changed1) ← ReconcileTimestampDiscrepancy h cf begin_key;
  if negb (status_ok s1) then Done (s1, h) else
  '(s2, new_end, changed2) ← ReconcileTimestampDiscrepancy h cf end_key;
  if negb (status_ok s2) then Done (s2, h) else
  Done (OK, add_to_new_batch h (DeleteRange cf new_begin new_end)
              (changed1 || changed2)).

(** Dispatch of one record to the handler; the marker callbacks
    ([MarkBeginPrepare], ..., [MarkNoop]) return OK and do nothing. *)
Definition handle_entry (h : TimestampRecoveryHandler) (e : Entry)
  : Exec (Status * TimestampRecoveryHandler) :=
  match e with
  | Put cf k v => PutCF h cf k v
  | Delete cf k => DeleteCF h cf k
  | SingleDelete cf k => SingleDeleteCF h cf k
  | DeleteRange cf b en => DeleteRangeCF h cf b en
  | Merge cf k v => MergeCF h cf k v
  | PutBlobIndex cf k v => PutBlobIndexCF h cf k v
  | BeginPrepare _ | EndPrepare _ | Commit _ | CommitWithTimestamp _ _
  | Rollback _ | Noop _ => Done (OK, h)
  end.

(** [WriteBatch::Iterate(handler)]: one callback per record in order,
    stopping at the first non-OK status. *)
Fixpoint Iterate (b : WriteBatch) (h : TimestampRecoveryHandler)
  : Exec (Status * TimestampRecoveryHandler) :=
  match b with
  | [] => Done (OK, h)
  | e :: rest =>
      '(s, h') ← handle_entry h e;
      if status_ok s then Iterate rest h' else Done (s, h')
  end.

End Handler.

(** [TransferNewBatch()]: asserts the changed flag, marks the handler
    invalid and moves [new_batch_] out (the caller move-assigns the
    returned reference, which leaves the handler's pointer null). *)
Definition TransferNewBatch (h : TimestampRecoveryHandler)
  : Exec (option WriteBatch * TimestampRecoveryHandler) :=
  _ ← cassert (new_batch_diff_from_orig_batch_ h);
  Done (new_batch_ h,
        mkHandler None false (new_batch_diff_from_orig_batch_ h)).

Inductive TimestampSizeConsistencyMode : Type :=
| kVerifyConsistency
| kReconcileInconsistency.

(** Modelled from the spec (section 4.4): verification mode checks every
    live column family the batch references against the rule; any action
    other than [NoOp] is an inconsistency. *)
Fixpoint verify_cfs (running_ts_sz record_ts_sz : gmap N N) (cfs : list N)
  : Status :=
  match cfs with
  | [] => OK
  | cf :: rest =>
      match running_ts_sz !! cf with
      | None => verify_cfs running_ts_sz record_ts_sz rest
      | Some running_sz =>
          let recorded_sz := default 0%N (record_ts_sz !! cf) in
          match rule recorded_sz running_sz with
          | NoOp => verify_cfs running_ts_sz record_ts_sz rest
          | _ => InvalidArgument (inconsistent_msg cf recorded_sz running_sz)
          end
      end
  end.

(** Modelled from the spec (section 4.4) and the comment of
    [HandleWriteBatchTimestampSizeDifference] (udt_util.h lines 190-203;
    the body is in udt_util.cc, not in this tree).  [new_batch] is the
    caller's output slot; the result is the status and the slot after the
    call.  In reconciliation mode the handler replays the batch; the new
    batch is transferred into the slot only when there is a tolerable
    inconsistency, i.e. when the replay rewrote at least one key (the
    handler's changed flag, udt_util.h lines 169-171); otherwise the slot
    is left as it was. *)
Definition HandleWriteBatchTimestampSizeDifference (batch : WriteBatch)
    (running_ts_sz record_ts_sz : gmap N N)
    (check_mode : TimestampSizeConsistencyMode) (new_batch : option WriteBatch)
  : Exec (Status * option WriteBatch) :=
  match check_mode with
  | kVerifyConsistency =>
      Done (verify_cfs running_ts_sz record_ts_sz (referenced_cfs batch), new_batch)
  | kReconcileInconsistency =>
      '(s, h) ← Iterate running_ts_sz record_ts_sz batch init_handler;
      if negb (status_ok s) then Done (s, new_batch) else
      if new_batch_diff_from_orig_batch_ h then
        '(nb, _) ← TransferNewBatch h;
        Done (OK, nb)
      else Done (OK, new_batch)
  end.

End Recovery.

(* ------------------------------------------------------------------ *)
(** ** Handler lemmas *)

Module HandlerFacts.
Import Batch Recovery.

Definition emap {A B} (f : A -> B) (m : Exec A) : Exec B :=
  match m with Done a => Done (f a) | AssertFail => AssertFail end.

(** A handler whose new batch already starts with [pre] and whose changed
    flag already includes [d]. *)
Definition shift (pre : WriteBatch) (d : bool) (h : TimestampRecoveryHandler)
  : TimestampRecoveryHandler :=
  mkHandler (option_map (fun b => pre ++ b) (new_batch_ h)) (handler_valid_ h)
    (d || new_batch_diff_from_orig_batch_ h).

Definition shift_res (pre : WriteBatch) (d : bool)
    (r : Status * TimestampRecoveryHandler) : Status * TimestampRecoveryHandler :=
  (r.1, shift pre d r.2).

Section Shift.
Context (running_ts_sz record_ts_sz : gmap N N).

Lemma RTD_shift pre d h cf key :
  ReconcileTimestampDiscrepancy running_ts_sz record_ts_sz (shift pre d h) cf key =
  ReconcileTimestampDiscrepancy running_ts_sz record_ts_sz h cf key.
Proof. reflexivity. Qed.

Lemma add_shift pre d h e ch :
  add_to_new_batch (shift pre d h) e ch = shift pre d (add_to_new_batch h e ch).
Proof.
  destruct h as [[nb|] v c]; unfold shift, add_to_new_batch; simpl;
    by rewrite ?app_assoc, orb_assoc.
Qed.

Lemma one_key_shift pre d h cf key mk :
  one_key_cf running_ts_sz record_ts_sz (shift pre d h) cf key mk =
  emap (shift_res pre d) (one_key_cf running_ts_sz record_ts_sz h cf key mk).
Proof.
  unfold one_key_cf. rewrite RTD_shift.
  destruct (ReconcileTimestampDiscrepancy _ _ h cf key) as [[[s k] c]|]; simpl; [|done].
  destruct (status_ok s); simpl; by rewrite ?add_shift.
Qed.

Lemma handle_entry_shift pre d h e :
  handle_entry running_ts_sz record_ts_sz (shift pre d h) e =
  emap (shift_res pre d) (handle_entry running_ts_sz record_ts_sz h e).
Proof.
  destruct e; simpl; try apply one_key_shift; try reflexivity.
  unfold DeleteRangeCF. rewrite !RTD_shift.
  destruct (ReconcileTimestampDiscrepancy _ _ h cf begin_key) as [[[s1 k1] c1]|];
    simpl; [|done].
  destruct (status_ok s1); simpl; [|done].
  destruct (ReconcileTimestampDiscrepancy _ _ h cf end_key) as [[[s2 k2] c2]|];
    simpl; [|done].
  destruct (status_ok s2); simpl; by rewrite ?add_shift.
Qed.

Lemma Iterate_shift pre d (b : WriteBatch) h :
  Iterate running_ts_sz record_ts_sz b (shift pre d h) =
  emap (shift_res pre d) (Iterate running_ts_sz record_ts_sz b h).
Proof.
  revert h. induction b as [|e b IH]; intros h; simpl; [done|].
  rewrite handle_entry_shift.
  destruct (handle_entry _ _ h e) as [[s h']|]; simpl; [|done].
  destruct (status_ok s); simpl; [apply IH|done].
Qed.

Lemma Iterate_app (b1 b2 : WriteBatch) h :
  Iterate running_ts_sz record_ts_sz (b1 ++ b2) h =
  '(s, h1) ← Iterate running_ts_sz record_ts_sz b1 h;
  if status_ok s then Iterate running_ts_sz record_ts_sz b2 h1 else Done (s, h1).
Proof.
  revert h. induction b1 as [|e b1 IH]; intros h; simpl; [done|].
  destruct (handle_entry _ _ h e) as [[s h']|]; simpl; [|done].
  destruct (status_ok s) eqn:E; simpl; [apply IH|by rewrite E].
Qed.

(** A valid handler holding [nb] is [init_handler] shifted by [nb]. *)
Lemma valid_handler_shift nb d :
  mkHandler (Some nb) true d = shift nb d init_handler.
Proof. unfold shift, init_handler. simpl. by rewrite app_nil_r, orb_false_r. Qed.

Lemma handle_entry_unchanged (h : TimestampRecoveryHandler) (e : Entry) :
  (forall cf key, entry_cf e = Some cf ->
     ReconcileTimestampDiscrepancy running_ts_sz record_ts_sz h cf key =
     Done (OK, key, false)) ->
  is_mutation e = true ->
  handle_entry running_ts_sz record_ts_sz h e =
  Done (OK, add_to_new_batch h e false).
Proof.
  intros Hkey Hm. destruct e; try discriminate Hm; simpl;
    unfold PutCF, DeleteCF, SingleDeleteCF, MergeCF, PutBlobIndexCF,
      one_key_cf, DeleteRangeCF;
    rewrite ?Hkey by reflexivity; reflexivity.
Qed.

Lemma handle_entry_marker (e : Entry) (h : TimestampRecoveryHandler) :
  is_mutation e = false ->
  handle_entry running_ts_sz record_ts_sz h e = Done (OK, h).
Proof. intros Hm. by destruct e. Qed.

(** When every live referenced column family has matching sizes, the
    replay copies each mutation unchanged and drops the markers. *)
Lemma Iterate_consistent (b : WriteBatch) (nb : WriteBatch) :
  (forall e cf run, e ∈ b -> entry_cf e = Some cf ->
     running_ts_sz !! cf = Some run -> default 0%N (record_ts_sz !! cf) = run) ->
  Iterate running_ts_sz record_ts_sz b (mkHandler (Some nb) true false) =
  Done (OK, mkHandler (Some (nb ++ List.filter is_mutation b)) true false).
Proof.
  revert nb. induction b as [|e b IH]; intros nb Hc; cbn [Iterate].
  { cbn [List.filter]. by rewrite app_nil_r. }
  assert (Hc' : forall e' cf run, e' ∈ b -> entry_cf e' = Some cf ->
     running_ts_sz !! cf = Some run -> default 0%N (record_ts_sz !! cf) = run)
    by (intros; eapply Hc; [apply elem_of_cons; by right|..]; eauto).
  assert (Hkey : forall cf key, entry_cf e = Some cf ->
     ReconcileTimestampDiscrepancy running_ts_sz record_ts_sz
       (mkHandler (Some nb) true false) cf key = Done (OK, key, false)).
  { intros cf key Hcf. unfold ReconcileTimestampDiscrepancy. simpl.
    destruct (running_ts_sz !! cf) as [run|] eqn:Hr; [|done].
    rewrite (Hc e cf run ltac:(apply elem_of_cons; by left) Hcf Hr).
    unfold reconcile, rule.
    destruct (N.eqb_spec run 0); [done|]. by rewrite N.eqb_refl. }
  destruct (is_mutation e) eqn:Hm.
  - assert (Hf : List.filter is_mutation (e :: b) = e :: List.filter is_mutation b)
      by (cbn [List.filter]; by rewrite Hm).
    rewrite Hf, (handle_entry_unchanged _ e Hkey Hm). unfold add_to_new_batch. simpl.
    rewrite IH by done. by rewrite <- app_assoc.
  - assert (Hf : List.filter is_mutation (e :: b) = List.filter is_mutation b)
      by (cbn [List.filter]; by rewrite Hm).
    rewrite Hf, (handle_entry_marker e _ Hm). simpl.
    by rewrite IH.
Qed.

End Shift.

(** The data-model precondition on keys: a key of a live column family
    carries its recorded timestamp suffix, so it is at least as long as
    the recorded size. *)
Definition keys_carry_suffix (running_ts_sz record_ts_sz : gmap N N) (e : Entry)
  : Prop :=
  forall cf key, entry_cf e = Some cf -> key ∈ entry_keys e ->
  is_Some (running_ts_sz !! cf) ->
  N.to_nat (default 0%N (record_ts_sz !! cf)) <= length key.

(** Both sizes nonzero and different. *)
Definition unreconcilable (running_ts_sz record_ts_sz : gmap N N) (cf : N) : Prop :=
  exists run, running_ts_sz !! cf = Some run /\
  default 0%N (record_ts_sz !! cf) <> 0%N /\ run <> 0%N /\
  default 0%N (record_ts_sz !! cf) <> run.

Definition ok_or_invalid (s : Status) : Prop :=
  s = OK \/ exists msg, s = InvalidArgument msg.

Section Fatal.
Context (running_ts_sz record_ts_sz : gmap N N).

Lemma rule_unreconcilable rec run :
  rec <> 0%N -> run <> 0%N -> rec <> run -> rule rec run = Unreconcilable.
Proof.
  intros H1 H2 H3. unfold rule.
  destruct (N.eqb_spec rec 0); [done|]. destruct (N.eqb_spec run 0); [done|].
  by destruct (N.eqb_spec rec run).
Qed.

Lemma RTD_unreconcilable h cf key :
  handler_valid_ h = true -> unreconcilable running_ts_sz record_ts_sz cf ->
  exists msg, ReconcileTimestampDiscrepancy running_ts_sz record_ts_sz h cf key =
              Done (InvalidArgument msg, key, false).
Proof.
  intros Hv (run & Hr & H1 & H2 & H3).
  unfold ReconcileTimestampDiscrepancy. rewrite Hv, Hr. simpl.
  unfold reconcile. rewrite rule_unreconcilable by done. by eexists.
Qed.

Lemma RTD_ok_or_invalid h cf key :
  handler_valid_ h = true ->
  (is_Some (running_ts_sz !! cf) ->
   N.to_nat (default 0%N (record_ts_sz !! cf)) <= length key) ->
  exists s k c, ReconcileTimestampDiscrepancy running_ts_sz record_ts_sz h cf key =
                Done (s, k, c) /\ ok_or_invalid s.
Proof.
  intros Hv Hlen. unfold ReconcileTimestampDiscrepancy. rewrite Hv. simpl.
  destruct (running_ts_sz !! cf) as [run|] eqn:Hr; [|by do 3 eexists; split; [|left]].
  specialize (Hlen ltac:(by eexists)).
  set (rec := default 0%N (record_ts_sz !! cf)) in *.
  unfold reconcile, rule.
  destruct (N.eqb_spec rec 0); [destruct (N.eqb_spec run 0)|];
    [by do 3 eexists; split; [|left]..|].
  destruct (N.eqb_spec run 0).
  - destruct (Nat.ltb_spec (length key) (N.to_nat rec)); [lia|].
    by do 3 eexists; split; [|left].
  - destruct (N.eqb_spec rec run); [by do 3 eexists; split; [|left]|].
    do 3 eexists; split; [reflexivity|]. right. by eexists.
Qed.

Lemma add_valid h e ch : handler_valid_ (add_to_new_batch h e ch) = handler_valid_ h.
Proof. reflexivity. Qed.

Lemma handle_entry_ok_or_invalid h e :
  handler_valid_ h = true -> keys_carry_suffix running_ts_sz record_ts_sz e ->
  exists s h', handle_entry running_ts_sz record_ts_sz h e = Done (s, h') /\
    ((s = OK /\ handler_valid_ h' = true) \/ exists msg, s = InvalidArgument msg).
Proof.
  intros Hv Hwf.
  assert (Hk : forall cf key, entry_cf e = Some cf -> key ∈ entry_keys e ->
     exists s k c, ReconcileTimestampDiscrepancy running_ts_sz record_ts_sz h cf key =
                   Done (s, k, c) /\ ok_or_invalid s)
    by (intros cf key Hcf Hkey; apply RTD_ok_or_invalid; [done|]; by apply Hwf).
  destruct e; simpl;
    try (by do 2 eexists; split; [reflexivity|left]);
    unfold PutCF, DeleteCF, SingleDeleteCF, MergeCF, PutBlobIndexCF, one_key_cf;
    try (destruct (Hk cf key eq_refl ltac:(apply elem_of_cons; by left))
           as (s & k & c & -> & [->|[msg ->]]);
         simpl; do 2 eexists; (split; [reflexivity|]); [left; done|right; by eexists]).
  unfold DeleteRangeCF.
  destruct (Hk cf begin_key eq_refl ltac:(apply elem_of_cons; by left))
    as (s1 & k1 & c1 & -> & [->|[msg ->]]); simpl;
    [|do 2 eexists; split; [reflexivity|right; by eexists]].
  destruct (Hk cf end_key eq_refl
              ltac:(apply elem_of_cons; right; apply elem_of_cons; by left))
    as (s2 & k2 & c2 & -> & [->|[msg ->]]); simpl;
    do 2 eexists; (split; [reflexivity|]); [left; done|right; by eexists].
Qed.

Lemma handle_entry_unreconcilable h e cf :
  handler_valid_ h = true -> entry_cf e = Some cf ->
  unreconcilable running_ts_sz record_ts_sz cf ->
  exists msg, handle_entry running_ts_sz record_ts_sz h e = Done (InvalidArgument msg, h).
Proof.
  intros Hv Hcf Hu.
  destruct e; simpl in Hcf |- *; try discriminate Hcf; injection Hcf as <-;
    unfold PutCF, DeleteCF, SingleDeleteCF, MergeCF, PutBlobIndexCF, one_key_cf,
      DeleteRangeCF;
    match goal with
    | |- context [ReconcileTimestampDiscrepancy _ _ _ ?c ?k] =>
        destruct (RTD_unreconcilable h c k Hv Hu) as [msg ->]; by exists msg
    end.
Qed.

Lemma Iterate_unreconcilable (b : WriteBatch) h e cf :
  handler_valid_ h = true ->
  (forall e', e' ∈ b -> keys_carry_suffix running_ts_sz record_ts_sz e') ->
  e ∈ b -> entry_cf e = Some cf -> unreconcilable running_ts_sz record_ts_sz cf ->
  exists msg h', Iterate running_ts_sz record_ts_sz b h = Done (InvalidArgument msg, h').
Proof.
  revert h. induction b as [|e0 b IH]; intros h Hv Hwf He Hcf Hu.
  { by apply elem_of_nil in He. }
  cbn [Iterate].
  apply elem_of_cons in He as [Heq|He].
  - subst e0. destruct (handle_entry_unreconcilable h e cf Hv Hcf Hu) as [msg ->].
    simpl. by exists msg, h.
  - destruct (handle_entry_ok_or_invalid h e0 Hv
                ltac:(apply Hwf, elem_of_cons; by left))
      as (s & h' & -> & [[-> Hv']|[msg ->]]); simpl.
    + apply (IH h'); try done. intros e' He'. apply Hwf, elem_of_cons. by right.
    + by exists msg, h'.
Qed.

Lemma verify_cfs_unreconcilable (l : list N) cf :
  cf ∈ l -> unreconcilable running_ts_sz record_ts_sz cf ->
  exists msg, verify_cfs running_ts_sz record_ts_sz l = InvalidArgument msg.
Proof.
  intros Hin Hu. induction l as [|c l IH]; [by apply elem_of_nil in Hin|].
  destruct Hu as (run & Hr & H1 & H2 & H3). simpl.
  apply elem_of_cons in Hin as [->|Hin].
  - rewrite Hr, rule_unreconcilable by done. by eexists.
  - destruct (running_ts_sz !! c) as [r|]; [|by apply IH].
    destruct (rule _ r); try (by eexists). by apply IH.
Qed.

End Fatal.

Section Dropped.
Context (running_ts_sz record_ts_sz : gmap N N).

Lemma verify_cfs_skip (l1 l2 : list N) cf :
  running_ts_sz !! cf = None ->
  verify_cfs running_ts_sz record_ts_sz (l1 ++ cf :: l2) =
  verify_cfs running_ts_sz record_ts_sz (l1 ++ l2).
Proof.
  intros Hd. induction l1 as [|c l1 IH]; simpl; [by rewrite Hd|].
  destruct (running_ts_sz !! c); [|done].
  by destruct (rule _ _).
Qed.

Lemma referenced_cfs_insert (pre post : WriteBatch) e cf :
  entry_cf e = Some cf ->
  referenced_cfs (pre ++ e :: post) = referenced_cfs pre ++ cf :: referenced_cfs post.
Proof.
  intros Hcf. unfold referenced_cfs. rewrite omap_app. simpl. by rewrite Hcf.
Qed.

Lemma handle_entry_dropped h e cf :
  handler_valid_ h = true -> entry_cf e = Some cf -> running_ts_sz !! cf = None ->
  handle_entry running_ts_sz record_ts_sz h e = Done (OK, add_to_new_batch h e false).
Proof.
  intros Hv Hcf Hd. apply handle_entry_unchanged.
  - intros c key Hc. rewrite Hcf in Hc. injection Hc as <-.
    unfold ReconcileTimestampDiscrepancy. rewrite Hv. simpl. by rewrite Hd.
  - unfold is_mutation. by rewrite Hcf.
Qed.

Lemma handle_entry_ok_shape nb d e s h' :
  handle_entry running_ts_sz record_ts_sz (mkHandler (Some nb) true d) e = Done (s, h') ->
  status_ok s = true ->
  (exists e' c, h' = mkHandler (Some (nb ++ [e'])) true (d || c)
                /\ is_mutation e = true) \/
  (h' = mkHandler (Some nb) true d /\ is_mutation e = false).
Proof.
  intros He Hs.
  destruct e; simpl in He;
    try (injection He as <- <-; by right);
    unfold PutCF, DeleteCF, SingleDeleteCF, MergeCF, PutBlobIndexCF, one_key_cf,
      DeleteRangeCF in He;
    repeat match type of He with
    | context [ReconcileTimestampDiscrepancy ?r1 ?r2 ?hh ?c ?k] =>
        destruct (ReconcileTimestampDiscrepancy r1 r2 hh c k)
          as [[[?s0 ?k0] ?c0]|]; simpl in He; [|discriminate He]
    | context [status_ok ?s0] =>
        destruct (status_ok s0) eqn:?; simpl in He
    end;
    injection He as <- <-; try congruence;
    left; do 2 eexists; split; reflexivity.
Qed.

(** A successful replay from a valid handler holding [nb] appends one
    record per mutation. *)
Lemma Iterate_ok_shape (b : WriteBatch) nb d h' :
  Iterate running_ts_sz record_ts_sz b (mkHandler (Some nb) true d) = Done (OK, h') ->
  exists out d', h' = mkHandler (Some (nb ++ out)) true d' /\
    length out = length (List.filter is_mutation b).
Proof.
  revert nb d. induction b as [|e b IH]; intros nb d Hi; cbn [Iterate] in Hi.
  { injection Hi as <-. exists [], d. by rewrite app_nil_r. }
  destruct (handle_entry _ _ _ e) as [[s h1]|] eqn:He; simpl in Hi; [|discriminate Hi].
  destruct (status_ok s) eqn:Hs; [|injection Hi as Hs' _; subst s; discriminate Hs].
  destruct (handle_entry_ok_shape nb d e s h1 He Hs)
    as [(e' & c & -> & Hm)|[-> Hm]].
  - destruct (IH _ _ Hi) as (out & d' & -> & Hl).
    exists (e' :: out), d'. split; [by rewrite <- app_assoc|].
    cbn [List.filter]. rewrite Hm. simpl. by rewrite Hl.
  - destruct (IH _ _ Hi) as (out & d' & -> & Hl).
    exists out, d'. split; [done|]. cbn [List.filter]. by rewrite Hm.
Qed.

End Dropped.

(** A mutation with its user keys erased: kind, column family and value. *)
Definition entry_skeleton (e : Entry) : Entry :=
  match e with
  | Put cf _ v => Put cf [] v
  | Delete cf _ => Delete cf []
  | SingleDelete cf _ => SingleDelete cf []
  | DeleteRange cf _ _ => DeleteRange cf [] []
  | Merge cf _ v => Merge cf [] v
  | PutBlobIndex cf _ v => PutBlobIndex cf [] v
  | e => e
  end.

Section Skel.
Context (running_ts_sz record_ts_sz : gmap N N).

Lemma reconcile_rewrites (cf rec run : N) (key k' : bytes) :
  reconcile cf rec run key = inr (Some k') -> k' <> key.
Proof.
  unfold reconcile, rule.
  destruct (N.eqb_spec rec 0); [destruct (N.eqb_spec run 0)|destruct (N.eqb_spec run 0);
       [|destruct (N.eqb_spec rec run)]]; try discriminate.
  - intros Hk. injection Hk as <-. intros Heq. apply (f_equal length) in Heq.
    unfold min_timestamp in Heq. rewrite length_app, repeat_length in Heq. lia.
  - destruct (Nat.ltb_spec (length key) (N.to_nat rec)); [discriminate|].
    intros Hk. injection Hk as <-. intros Heq. apply (f_equal length) in Heq.
    rewrite length_take in Heq. lia.
Qed.

Lemma RTD_key h cf key s k' c :
  ReconcileTimestampDiscrepancy running_ts_sz record_ts_sz h cf key = Done (s, k', c) ->
  (c = false -> k' = key) /\ (c = true -> k' <> key).
Proof.
  unfold ReconcileTimestampDiscrepancy.
  destruct (handler_valid_ h); simpl; [|discriminate].
  destruct (running_ts_sz !! cf) as [run|]; [|intros H; injection H as <- <- <-; done].
  destruct (reconcile cf (default 0%N (record_ts_sz !! cf)) run key) as [s0|[k0|]] eqn:Er;
    intros H; injection H as <- <- <-; try done.
  split; [done|]. intros _. by apply (reconcile_rewrites _ _ _ _ _ Er).
Qed.

Lemma handle_entry_ok_skeleton nb d e s h' :
  handle_entry running_ts_sz record_ts_sz (mkHandler (Some nb) true d) e = Done (s, h') ->
  status_ok s = true ->
  (exists e' c, h' = mkHandler (Some (nb ++ [e'])) true (d || c) /\
     entry_skeleton e' = entry_skeleton e /\ is_mutation e = true /\
     (c = false -> e' = e) /\ (c = true -> e' <> e)) \/
  (h' = mkHandler (Some nb) true d /\ is_mutation e = false).
Proof.
  intros He Hs.
  destruct e; simpl in He;
    try (injection He as <- <-; by right);
    unfold PutCF, DeleteCF, SingleDeleteCF, MergeCF, PutBlobIndexCF, one_key_cf,
      DeleteRangeCF in He;
    repeat match type of He with
    | context [ReconcileTimestampDiscrepancy ?r1 ?r2 ?hh ?c ?k] =>
        let E := fresh "E" in
        destruct (ReconcileTimestampDiscrepancy r1 r2 hh c k)
          as [[[?s0 ?k0] ?c0]|] eqn:E; simpl in He; [|discriminate He];
        apply RTD_key in E as [? ?]
    | context [status_ok ?s0] =>
        destruct (status_ok s0) eqn:?; simpl in He
    end;
    injection He as <- <-; try congruence;
    left; do 2 eexists; (split; [reflexivity|]); (split; [reflexivity|]);
      (split; [reflexivity|]); unfold not in *; split.
  all: try (intros Hc; (try apply orb_false_iff in Hc as [Hc1 Hc2]); f_equal; eauto; fail).
  all: intros Hc Heq; injection Heq; intros; (try apply orb_true_iff in Hc as [Hc|Hc]); eauto.
Qed.

Lemma Iterate_ok_skeleton (b : WriteBatch) nb d h' :
  Iterate running_ts_sz record_ts_sz b (mkHandler (Some nb) true d) = Done (OK, h') ->
  exists out d', h' = mkHandler (Some (nb ++ out)) true d' /\
    map entry_skeleton out = map entry_skeleton (List.filter is_mutation b) /\
    (d' = false -> d = false /\ out = List.filter is_mutation b) /\
    (d' = true -> d = true \/ out <> List.filter is_mutation b).
Proof.
  revert nb d. induction b as [|e b IH]; intros nb d Hi; cbn [Iterate] in Hi.
  { injection Hi as <-. exists [], d. rewrite app_nil_r.
    split; [done|]. split; [done|]. split; intros ->; auto. }
  destruct (handle_entry _ _ _ e) as [[s h1]|] eqn:He; simpl in Hi; [|discriminate Hi].
  destruct (status_ok s) eqn:Hs; [|injection Hi as Hs' _; subst s; discriminate Hs].
  destruct (handle_entry_ok_skeleton nb d e s h1 He Hs)
    as [(e' & c & -> & Hk & Hm & Hf & Ht)|[-> Hm]].
  - destruct (IH _ _ Hi) as (out & d' & -> & Hl & Hf' & Ht').
    exists (e' :: out), d'. split; [by rewrite <- app_assoc|].
    cbn [List.filter]. rewrite Hm. cbn [map]. rewrite Hk, Hl. split; [done|]. split.
    + intros Hd. destruct (Hf' Hd) as [Hdc Ho].
      apply orb_false_iff in Hdc as [-> Hc]. rewrite (Hf Hc), Ho. done.
    + intros Hd. destruct (Ht' Hd) as [Hdc|Ho].
      * apply orb_true_iff in Hdc as [->|Hc]; [by left|]. right.
        intros Heq. injection Heq as Heq _. by apply (Ht Hc).
      * right. intros Heq. injection Heq as _ Heq. by apply Ho.
  - destruct (IH _ _ Hi) as (out & d' & -> & Hl).
    exists out, d'. split; [done|]. cbn [List.filter]. by rewrite Hm.
Qed.
End Skel.

Lemma rule_NoOp_iff (rec run : N) : rule rec run = NoOp <-> rec = run.
Proof.
  unfold rule.
  destruct (N.eqb_spec rec 0), (N.eqb_spec run 0); try (split; congruence || lia).
  destruct (N.eqb_spec rec run); split; congruence.
Qed.

Lemma verify_cfs_spec (running_ts_sz record_ts_sz : gmap N N) (cfs : list N) :
  let s := verify_cfs running_ts_sz record_ts_sz cfs in
  (s = OK <-> forall cf run, cf ∈ cfs -> running_ts_sz !! cf = Some run ->
                 default 0%N (record_ts_sz !! cf) = run) /\
  (s <> OK -> exists msg, s = InvalidArgument msg).
Proof.
  induction cfs as [|cf cfs [IH1 IH2]]; simpl.
  { split; [split; [intros _ cf run Hin; by apply elem_of_nil in Hin|done]|done]. }
  destruct (running_ts_sz !! cf) as [run|] eqn:Hr.
  - destruct (rule (default 0%N (record_ts_sz !! cf)) run) eqn:Hrule.
    + apply rule_NoOp_iff in Hrule. split; [|exact IH2].
      rewrite IH1. split.
      * intros H c r Hin Hc. apply elem_of_cons in Hin as [->|Hin].
        -- rewrite Hr in Hc. congruence.
        -- by apply (H c r Hin Hc).
      * intros H c r Hin Hc. apply (H c r); [by apply elem_of_cons; right|done].
    + split; [|by eexists]. split; [done|].
      intros H. exfalso. specialize (H cf run ltac:(by apply elem_of_cons; left) Hr).
      apply rule_NoOp_iff in H. congruence.
    + split; [|by eexists]. split; [done|].
      intros H. exfalso. specialize (H cf run ltac:(by apply elem_of_cons; left) Hr).
      apply rule_NoOp_iff in H. congruence.
    + split; [|by eexists]. split; [done|].
      intros H. exfalso. specialize (H cf run ltac:(by apply elem_of_cons; left) Hr).
      apply rule_NoOp_iff in H. congruence.
  - split; [|exact IH2]. rewrite IH1. split.
    + intros H c r Hin Hc. apply elem_of_cons in Hin as [->|Hin]; [congruence|].
      by apply (H c r Hin Hc).
    + intros H c r Hin Hc. apply (H c r); [by apply elem_of_cons; right|done].
Qed.

(** Whether the reconciliation-mode replay of [b] succeeds and rewrites a
    key, i.e. whether the call transfers a new batch. *)
Definition replay_transfers (running_ts_sz record_ts_sz : gmap N N) (b : WriteBatch)
  : bool :=
  match Iterate running_ts_sz record_ts_sz b init_handler with
  | Done (OK, h) => new_batch_diff_from_orig_batch_ h
  | _ => false
  end.

(** Replaying [pre ++ e :: post], with [e] on a dropped column family,
    gives the result of replaying [pre ++ post], with [e] inserted into the
    new batch after the mutations of [pre] when the replay succeeds. *)
Lemma Iterate_dropped (running_ts_sz record_ts_sz : gmap N N)
    (pre post : WriteBatch) (e : Entry) (cf : N) :
  entry_cf e = Some cf -> running_ts_sz !! cf = None ->
  let k := length (List.filter is_mutation pre) in
  match Iterate running_ts_sz record_ts_sz (pre ++ post) init_handler with
  | Done (OK, h) =>
      Iterate running_ts_sz record_ts_sz (pre ++ e :: post) init_handler =
      Done (OK, mkHandler (option_map (fun nb => take k nb ++ e :: drop k nb)
                             (new_batch_ h))
                          (handler_valid_ h) (new_batch_diff_from_orig_batch_ h))
  | Done (s, _) =>
      exists h', Iterate running_ts_sz record_ts_sz (pre ++ e :: post) init_handler
                 = Done (s, h')
  | AssertFail => Iterate running_ts_sz record_ts_sz (pre ++ e :: post) init_handler
                  = AssertFail
  end.
Proof.
  intros Hcf Hd k. rewrite !Iterate_app.
  destruct (Iterate running_ts_sz record_ts_sz pre init_handler)
    as [[s1 h1]|] eqn:E1; simpl; [|reflexivity].
  destruct (status_ok s1) eqn:Hs1; [|destruct s1; try discriminate Hs1; by eexists].
  destruct s1; try discriminate Hs1.
  destruct (Iterate_ok_shape _ _ pre [] false h1 E1) as (out1 & d1 & -> & Hl1).
  rewrite app_nil_l. cbn [Iterate].
  rewrite (handle_entry_dropped _ _ (mkHandler (Some out1) true d1) e cf eq_refl Hcf Hd).
  simpl. unfold add_to_new_batch. simpl. rewrite orb_false_r.
  rewrite (valid_handler_shift (out1 ++ [e]) d1), (valid_handler_shift out1 d1).
  rewrite !Iterate_shift.
  destruct (Iterate running_ts_sz record_ts_sz post init_handler)
    as [[s2 h2]|] eqn:E2; simpl; [|reflexivity].
  destruct s2; simpl; try by eexists.
  destruct (Iterate_ok_shape _ _ post [] false h2 E2) as (out2 & d2 & -> & _).
  simpl. subst k. rewrite <- Hl1, take_app_length, drop_app_length.
  unfold shift_res, shift. simpl. by rewrite <- app_assoc.
Qed.

End HandlerFacts.

Module HandlerClaims.
Import Batch Recovery HandlerFacts.

Definition key_ab : bytes := [Byte.x61; Byte.x62].
Definition val_v : bytes := [Byte.x76].

(** Column family 1 running without timestamps, nothing recorded. *)
Definition running_cf1_0 : gmap N N := <[1%N := 0%N]> ∅.
(** Column family 1 running with 8-byte timestamps, nothing recorded. *)
Definition running_cf1_8 : gmap N N := <[1%N := 8%N]> ∅.

(** ** C1 *)
(** C1 (counterexample): column family 1 has recorded size 0 (absent) and
    running size 0, so the batch [Put(1, "ab", "v")] is consistent; the
    reconciliation-mode call returns OK but transfers no batch: the empty
    output slot stays empty. *)
Lemma C1_consistent_batch_not_transferred :
  running_cf1_0 !! 1%N = Some 0%N /\ (∅ : gmap N N) !! 1%N = None /\
  HandleWriteBatchTimestampSizeDifference [Put 1 key_ab val_v] running_cf1_0 ∅
    kReconcileInconsistency None = Done (OK, None).
Proof. split; [reflexivity|]. split; reflexivity. Qed.

(** C1 (amended): when every live column family the batch references has
    equal recorded and running sizes, verification mode reports OK and
    reconciliation mode returns OK with the output slot left as the caller
    passed it.  The replay builds a batch holding exactly the input's
    mutations in order (markers are not copied) with the changed flag
    false, on which [TransferNewBatch] would fail its assertion.  In
    general a batch is transferred only when the replay rewrote a key: a
    transferred batch differs from the input's mutations. *)
Theorem C1_transfer_only_on_rewrite (running_ts_sz record_ts_sz : gmap N N)
    (b : WriteBatch) (new_batch : option WriteBatch) :
  (forall e cf run, e ∈ b -> entry_cf e = Some cf ->
     running_ts_sz !! cf = Some run -> default 0%N (record_ts_sz !! cf) = run) ->
  HandleWriteBatchTimestampSizeDifference b running_ts_sz record_ts_sz
    kVerifyConsistency new_batch = Done (OK, new_batch) /\
  HandleWriteBatchTimestampSizeDifference b running_ts_sz record_ts_sz
    kReconcileInconsistency new_batch = Done (OK, new_batch) /\
  Iterate running_ts_sz record_ts_sz b init_handler =
    Done (OK, mkHandler (Some (List.filter is_mutation b)) true false) /\
  TransferNewBatch (mkHandler (Some (List.filter is_mutation b)) true false)
    = AssertFail /\
  (forall (b' : WriteBatch) (slot out : option WriteBatch) (s : Status),
     HandleWriteBatchTimestampSizeDifference b' running_ts_sz record_ts_sz
       kReconcileInconsistency slot = Done (s, out) ->
     out = slot \/
     (s = OK /\ exists nb, out = Some nb /\ nb <> List.filter is_mutation b')).
Proof.
  intros Hc.
  assert (Hi : Iterate running_ts_sz record_ts_sz b init_handler =
    Done (OK, mkHandler (Some (List.filter is_mutation b)) true false))
    by exact (Iterate_consistent running_ts_sz record_ts_sz b [] Hc).
  split; [|split; [|split; [exact Hi|split; [reflexivity|]]]].
  - cbn [HandleWriteBatchTimestampSizeDifference]. f_equal. f_equal.
    apply (proj1 (verify_cfs_spec running_ts_sz record_ts_sz (referenced_cfs b))).
    intros cf run Hin Hr. unfold referenced_cfs in Hin.
    apply list_elem_of_omap in Hin as (e & He & Hcf). by apply (Hc e cf run).
  - cbn [HandleWriteBatchTimestampSizeDifference]. rewrite Hi. reflexivity.
  - intros b' slot out s.
    cbn [HandleWriteBatchTimestampSizeDifference].
    destruct (Iterate running_ts_sz record_ts_sz b' init_handler)
      as [[s' h]|] eqn:Ei; simpl; [|discriminate].
    destruct (status_ok s') eqn:Hs; simpl; [|intros H; injection H as _ <-; by left].
    destruct s'; try discriminate Hs.
    destruct (Iterate_ok_skeleton _ _ b' [] false h Ei) as (out' & d & -> & _ & _ & Ht).
    destruct d; simpl; [|intros H; injection H as _ <-; by left].
    intros H. injection H as <- <-. right. split; [done|].
    exists out'. split; [done|]. by destruct (Ht eq_refl).
Qed.

Lemma C1_witness :
  (forall e cf run, e ∈ [Put 1 key_ab val_v; Commit []] -> entry_cf e = Some cf ->
     running_cf1_0 !! cf = Some run -> default 0%N ((∅ : gmap N N) !! cf) = run) /\
  HandleWriteBatchTimestampSizeDifference [Put 1 key_ab val_v; Commit []] running_cf1_0 ∅
    kVerifyConsistency None = Done (OK, None) /\
  HandleWriteBatchTimestampSizeDifference [Put 1 key_ab val_v; Commit []] running_cf1_0 ∅
    kReconcileInconsistency None = Done (OK, None) /\
  Iterate running_cf1_0 ∅ [Put 1 key_ab val_v; Commit []] init_handler =
    Done (OK, mkHandler (Some (List.filter is_mutation [Put 1 key_ab val_v; Commit []]))
                true false) /\
  TransferNewBatch (mkHandler (Some (List.filter is_mutation
                                      [Put 1 key_ab val_v; Commit []])) true false)
    = AssertFail /\
  (forall (b' : WriteBatch) (slot out : option WriteBatch) (s : Status),
     HandleWriteBatchTimestampSizeDifference b' running_cf1_0 ∅
       kReconcileInconsistency slot = Done (s, out) ->
     out = slot \/
     (s = OK /\ exists nb, out = Some nb /\ nb <> List.filter is_mutation b')).
Proof.
  assert (H : forall e cf run, e ∈ [Put 1 key_ab val_v; Commit []] ->
     entry_cf e = Some cf -> running_cf1_0 !! cf = Some run ->
     default 0%N ((∅ : gmap N N) !! cf) = run).
  { intros e cf run He Hcf Hr.
    repeat (apply elem_of_cons in He as [He|He]); [subst e..|by apply elem_of_nil in He].
    - injection Hcf as <-. unfold running_cf1_0 in Hr.
      rewrite lookup_insert_eq in Hr. by injection Hr as <-.
    - discriminate Hcf. }
  split; [exact H|]. apply (C1_transfer_only_on_rewrite _ _ _ None H).
Defined.

(** ** C2 *)
(** C2 (counterexample): after a replay that pads a key, the first
    [TransferNewBatch] returns the batch and invalidates the handler, and a
    second call does not fail: it returns a null batch. *)
Lemma C2_second_transfer_returns_null :
  exists h1 nb h2,
    Iterate running_cf1_8 ∅ [Put 1 key_ab val_v] init_handler = Done (OK, h1) /\
    TransferNewBatch h1 = Done (Some nb, h2) /\
    handler_valid_ h2 = false /\
    TransferNewBatch h2 = Done (None, h2).
Proof. do 3 eexists. split; [reflexivity|]. split; [reflexivity|]. split; reflexivity. Qed.

(** C2 (amended): [TransferNewBatch] checks only the changed flag.  With
    the flag false it fails its assertion; with the flag set it returns the
    accumulated batch, marks the handler invalid and leaves its pointer
    null, and a second call returns a null batch without failing.  On an
    invalid handler, a mutation callback fails the validity assertion,
    while the transaction-marker callbacks still return OK. *)
Theorem C2_transfer_checks_only_changed_flag :
  (forall h, new_batch_diff_from_orig_batch_ h = false ->
     TransferNewBatch h = AssertFail) /\
  (forall h, new_batch_diff_from_orig_batch_ h = true ->
     TransferNewBatch h = Done (new_batch_ h, mkHandler None false true)) /\
  TransferNewBatch (mkHandler None false true) =
    Done (None, mkHandler None false true) /\
  (forall running_ts_sz record_ts_sz h e, handler_valid_ h = false ->
     is_mutation e = true ->
     handle_entry running_ts_sz record_ts_sz h e = AssertFail) /\
  (forall running_ts_sz record_ts_sz h e, is_mutation e = false ->
     handle_entry running_ts_sz record_ts_sz h e = Done (OK, h)).
Proof.
  split; [|split; [|split; [|split]]].
  - intros h Hd. unfold TransferNewBatch. by rewrite Hd.
  - intros h Hd. unfold TransferNewBatch. rewrite Hd. reflexivity.
  - reflexivity.
  - intros running_ts_sz record_ts_sz h e Hv Hm.
    destruct e; try discriminate Hm; simpl;
      unfold PutCF, DeleteCF, SingleDeleteCF, MergeCF, PutBlobIndexCF,
        one_key_cf, DeleteRangeCF, ReconcileTimestampDiscrepancy;
      by rewrite Hv.
  - intros running_ts_sz record_ts_sz h e Hm. by apply handle_entry_marker.
Qed.

(** ** C6 *)
(** C6: for a valid handler and a live column family with running size
    [run] and recorded size [rec] (0 when unrecorded), the per-key
    reconciliation follows the table: both zero or both equal nonzero keeps
    the key; recorded zero and running positive appends [run] zero bytes;
    recorded positive and running zero removes the last [rec] bytes (for a
    key at least [rec] bytes long); both nonzero and unequal is
    InvalidArgument. *)
Theorem C6_reconcile_table (running_ts_sz record_ts_sz : gmap N N)
    (h : TimestampRecoveryHandler) (cf : N) (key : bytes) (run rec : N) :
  handler_valid_ h = true ->
  running_ts_sz !! cf = Some run ->
  default 0%N (record_ts_sz !! cf) = rec ->
  let RTD := ReconcileTimestampDiscrepancy running_ts_sz record_ts_sz h cf key in
  (((rec = 0 /\ run = 0) \/ (rec <> 0 /\ rec = run))%N -> RTD = Done (OK, key, false)) /\
  (rec = 0%N -> (0 < run)%N ->
     RTD = Done (OK, key ++ repeat Byte.x00 (N.to_nat run), true)) /\
  ((0 < rec)%N -> run = 0%N -> N.to_nat rec <= length key ->
     RTD = Done (OK, take (length key - N.to_nat rec) key, true)) /\
  (rec <> 0%N -> run <> 0%N -> rec <> run ->
     exists msg, RTD = Done (InvalidArgument msg, key, false)).
Proof.
  intros Hv Hr Hrec RTD. subst RTD.
  unfold ReconcileTimestampDiscrepancy. rewrite Hv, Hr, Hrec. simpl.
  unfold reconcile, rule.
  split; [|split; [|split]].
  - intros [[-> ->]|[Hn ->]]; [done|].
    destruct (N.eqb_spec run 0); [done|]. by rewrite N.eqb_refl.
  - intros -> Hpos. destruct (N.eqb_spec run 0); [lia|done].
  - intros Hpos -> Hlen. destruct (N.eqb_spec rec 0); [lia|]. simpl.
    destruct (Nat.ltb_spec (length key) (N.to_nat rec)); [lia|done].
  - intros Hn1 Hn2 Hne.
    destruct (N.eqb_spec rec 0); [done|]. destruct (N.eqb_spec run 0); [done|].
    destruct (N.eqb_spec rec run); [done|]. by eexists.
Qed.

Lemma C6_witness :
  handler_valid_ init_handler = true /\
  running_cf1_8 !! 1%N = Some 8%N /\
  default 0%N ((∅ : gmap N N) !! 1%N) = 0%N /\
  (let RTD := ReconcileTimestampDiscrepancy running_cf1_8 ∅ init_handler 1 key_ab in
  (((0 = 0 /\ 8 = 0) \/ (0 <> 0 /\ 0 = 8))%N -> RTD = Done (OK, key_ab, false)) /\
  (0%N = 0%N -> (0 < 8)%N ->
     RTD = Done (OK, key_ab ++ repeat Byte.x00 (N.to_nat 8), true)) /\
  ((0 < 0)%N -> 8%N = 0%N -> N.to_nat 0 <= length key_ab ->
     RTD = Done (OK, take (length key_ab - N.to_nat 0) key_ab, true)) /\
  (0%N <> 0%N -> 8%N <> 0%N -> 0%N <> 8%N ->
     exists msg, RTD = Done (InvalidArgument msg, key_ab, false))).
Proof.
  split; [reflexivity|]. split; [reflexivity|]. split; [reflexivity|].
  apply (C6_reconcile_table running_cf1_8 ∅ init_handler 1 key_ab 8 0);
    reflexivity.
Defined.

(** ** C7 *)
(** C7: when a column family the batch references is live with running
    size [run] and recorded size [rec], both nonzero and different, both
    modes fail with InvalidArgument and leave the output slot as it was,
    provided every key carries its recorded timestamp suffix. *)
Theorem C7_unreconcilable_fails (running_ts_sz record_ts_sz : gmap N N)
    (b : WriteBatch) (e : Entry) (cf run rec : N)
    (check_mode : TimestampSizeConsistencyMode) (new_batch : option WriteBatch) :
  e ∈ b -> entry_cf e = Some cf ->
  running_ts_sz !! cf = Some run -> default 0%N (record_ts_sz !! cf) = rec ->
  rec <> 0%N -> run <> 0%N -> rec <> run ->
  (forall e', e' ∈ b -> keys_carry_suffix running_ts_sz record_ts_sz e') ->
  exists msg, HandleWriteBatchTimestampSizeDifference b running_ts_sz record_ts_sz
                check_mode new_batch = Done (InvalidArgument msg, new_batch).
Proof.
  intros He Hcf Hr Hrec H1 H2 H3 Hwf.
  assert (Hu : unreconcilable running_ts_sz record_ts_sz cf)
    by (exists run; subst rec; done).
  destruct check_mode; simpl.
  - destruct (verify_cfs_unreconcilable running_ts_sz record_ts_sz
                (referenced_cfs b) cf) as [msg ->]; [|done|by exists msg].
    apply list_elem_of_omap. by exists e.
  - destruct (Iterate_unreconcilable running_ts_sz record_ts_sz b init_handler e cf
                eq_refl Hwf He Hcf Hu) as (msg & h' & ->).
    simpl. by exists msg.
Qed.

Definition key_abc000 : bytes := [Byte.x61; Byte.x62; Byte.x63; Byte.x00; Byte.x00; Byte.x00].
Definition key_xyz : bytes := [Byte.x78; Byte.x79; Byte.x7a].
Definition val_v1 : bytes := [Byte.x76; Byte.x31].
Definition scenario_batch : WriteBatch := [Put 1 key_abc000 val_v1; Delete 2 key_xyz].
Definition scenario_running : gmap N N := <[1%N := 5%N]> (<[2%N := 0%N]> ∅).
Definition scenario_recorded : gmap N N := <[1%N := 3%N]> ∅.

Lemma scenario_keys_carry_suffix e' :
  e' ∈ scenario_batch -> keys_carry_suffix scenario_running scenario_recorded e'.
Proof.
  intros He cf key Hcf Hkey _.
  unfold scenario_batch in He.
  repeat (apply elem_of_cons in He as [He|He]); [subst e'..|by apply elem_of_nil in He];
    simpl in Hcf; injection Hcf as <-;
    simpl in Hkey; apply elem_of_cons in Hkey as [->|Hkey];
    try (by apply elem_of_nil in Hkey); vm_compute; lia.
Qed.

Lemma C7_witness :
  Put 1 key_abc000 val_v1 ∈ scenario_batch /\
  entry_cf (Put 1 key_abc000 val_v1) = Some 1%N /\
  scenario_running !! 1%N = Some 5%N /\
  default 0%N (scenario_recorded !! 1%N) = 3%N /\
  (forall e', e' ∈ scenario_batch -> keys_carry_suffix scenario_running scenario_recorded e') /\
  exists msg, HandleWriteBatchTimestampSizeDifference scenario_batch scenario_running
                scenario_recorded kReconcileInconsistency None
              = Done (InvalidArgument msg, None).
Proof.
  assert (He : Put 1 key_abc000 val_v1 ∈ scenario_batch)
    by (apply elem_of_cons; by left).
  split; [exact He|]. split; [reflexivity|]. split; [reflexivity|].
  split; [reflexivity|]. split; [exact scenario_keys_carry_suffix|].
  apply (C7_unreconcilable_fails scenario_running scenario_recorded scenario_batch
           (Put 1 key_abc000 val_v1) 1 5 3 kReconcileInconsistency None He eq_refl
           eq_refl eq_refl); [lia|lia|lia|exact scenario_keys_carry_suffix].
Defined.

(** ** C8 *)
(** C8: a mutation [e] on a dropped column family (absent from
    [running_ts_sz]) takes no part in either mode's decision.  Verification
    mode returns the same result with or without it.  In reconciliation
    mode, whether a new batch is transferred does not depend on it; when no
    batch is transferred (including every failure) the result is the same
    with or without it, and a transferred batch holds [e], unchanged, at
    its position among the mutations. *)
Theorem C8_dropped_cf_ignored (running_ts_sz record_ts_sz : gmap N N)
    (pre post : WriteBatch) (e : Entry) (cf : N) (new_batch : option WriteBatch) :
  entry_cf e = Some cf -> running_ts_sz !! cf = None ->
  let k := length (List.filter is_mutation pre) in
  HandleWriteBatchTimestampSizeDifference (pre ++ e :: post) running_ts_sz
    record_ts_sz kVerifyConsistency new_batch =
  HandleWriteBatchTimestampSizeDifference (pre ++ post) running_ts_sz
    record_ts_sz kVerifyConsistency new_batch /\
  replay_transfers running_ts_sz record_ts_sz (pre ++ e :: post) =
  replay_transfers running_ts_sz record_ts_sz (pre ++ post) /\
  (replay_transfers running_ts_sz record_ts_sz (pre ++ post) = false ->
   HandleWriteBatchTimestampSizeDifference (pre ++ e :: post) running_ts_sz
     record_ts_sz kReconcileInconsistency new_batch =
   HandleWriteBatchTimestampSizeDifference (pre ++ post) running_ts_sz
     record_ts_sz kReconcileInconsistency new_batch) /\
  (replay_transfers running_ts_sz record_ts_sz (pre ++ post) = true ->
   exists nb,
     HandleWriteBatchTimestampSizeDifference (pre ++ post) running_ts_sz
       record_ts_sz kReconcileInconsistency new_batch = Done (OK, Some nb) /\
     HandleWriteBatchTimestampSizeDifference (pre ++ e :: post) running_ts_sz
       record_ts_sz kReconcileInconsistency new_batch =
       Done (OK, Some (take k nb ++ e :: drop k nb))).
Proof.
  intros Hcf Hd k. split.
  { cbn [HandleWriteBatchTimestampSizeDifference].
    rewrite (referenced_cfs_insert pre post e cf Hcf).
    unfold referenced_cfs. rewrite omap_app. by rewrite verify_cfs_skip. }
  pose proof (Iterate_dropped running_ts_sz record_ts_sz pre post e cf Hcf Hd) as HI.
  cbv zeta in HI. fold k in HI.
  unfold replay_transfers. cbn [HandleWriteBatchTimestampSizeDifference].
  destruct (Iterate running_ts_sz record_ts_sz (pre ++ post) init_handler)
    as [[s h]|] eqn:E.
  - destruct s.
    + rewrite HI.
      destruct (Iterate_ok_shape _ _ (pre ++ post) [] false h E) as (out & d & -> & _).
      simpl. destruct d; simpl.
      * split; [done|]. split; [discriminate|]. intros _. by eexists.
      * split; [done|]. split; [done|]. discriminate.
    + destruct HI as [h' ->]. simpl. split; [done|]. split; [done|]. discriminate.
    + destruct HI as [h' ->]. simpl. split; [done|]. split; [done|]. discriminate.
  - rewrite HI. simpl. split; [done|]. split; [done|]. discriminate.
Qed.

Lemma C8_witness :
  entry_cf (Delete 9 key_xyz) = Some 9%N /\ running_cf1_8 !! 9%N = None /\
  replay_transfers running_cf1_8 ∅ ([Put 1 key_ab val_v] ++ []) = true /\
  HandleWriteBatchTimestampSizeDifference ([Put 1 key_ab val_v] ++ Delete 9 key_xyz :: [])
    running_cf1_8 ∅ kReconcileInconsistency None =
    Done (OK, Some [Put 1 (key_ab ++ repeat Byte.x00 8) val_v; Delete 9 key_xyz]) /\
  (let k := length (List.filter is_mutation [Put 1 key_ab val_v]) in
  HandleWriteBatchTimestampSizeDifference ([Put 1 key_ab val_v] ++ Delete 9 key_xyz :: [])
    running_cf1_8 ∅ kVerifyConsistency None =
  HandleWriteBatchTimestampSizeDifference ([Put 1 key_ab val_v] ++ [])
    running_cf1_8 ∅ kVerifyConsistency None /\
  replay_transfers running_cf1_8 ∅ ([Put 1 key_ab val_v] ++ Delete 9 key_xyz :: []) =
  replay_transfers running_cf1_8 ∅ ([Put 1 key_ab val_v] ++ []) /\
  (replay_transfers running_cf1_8 ∅ ([Put 1 key_ab val_v] ++ []) = false ->
   HandleWriteBatchTimestampSizeDifference ([Put 1 key_ab val_v] ++ Delete 9 key_xyz :: [])
     running_cf1_8 ∅ kReconcileInconsistency None =
   HandleWriteBatchTimestampSizeDifference ([Put 1 key_ab val_v] ++ [])
     running_cf1_8 ∅ kReconcileInconsistency None) /\
  (replay_transfers running_cf1_8 ∅ ([Put 1 key_ab val_v] ++ []) = true ->
   exists nb,
     HandleWriteBatchTimestampSizeDifference ([Put 1 key_ab val_v] ++ [])
       running_cf1_8 ∅ kReconcileInconsistency None = Done (OK, Some nb) /\
     HandleWriteBatchTimestampSizeDifference ([Put 1 key_ab val_v] ++ Delete 9 key_xyz :: [])
       running_cf1_8 ∅ kReconcileInconsistency None =
       Done (OK, Some (take k nb ++ Delete 9 key_xyz :: drop k nb)))).
Proof.
  split; [reflexivity|]. split; [reflexivity|]. split; [reflexivity|].
  split; [reflexivity|].
  exact (C8_dropped_cf_ignored running_cf1_8 ∅ [Put 1 key_ab val_v] []
           (Delete 9 key_xyz) 9 None eq_refl eq_refl).
Defined.

End HandlerClaims.

(* ------------------------------------------------------------------ *)
(** ** Further properties of the record codec and of DebugString *)

Module CodecExtras.
Import UDTRecord CodecFacts CodecClaims.

Lemma byte_to_N_inj (a b : Byte.byte) : Byte.to_N a = Byte.to_N b -> a = b.
Proof. intros H. pose proof (Byte.of_to_N a). pose proof (Byte.of_to_N b). congruence. Qed.

Lemma EncodeFixed32_Decode (b0 b1 b2 b3 : Byte.byte) :
  EncodeFixed32 (DecodeFixed32 b0 b1 b2 b3) = [b0; b1; b2; b3].
Proof.
  unfold EncodeFixed32, DecodeFixed32.
  pose proof (Byte.to_N_bounded b0). pose proof (Byte.to_N_bounded b1).
  pose proof (Byte.to_N_bounded b2). pose proof (Byte.to_N_bounded b3).
  repeat f_equal; apply byte_to_N_inj; rewrite byte_of_N_to_N;
    rewrite ?N.shiftr_div_pow2; simpl (2 ^ _)%N;
    zify; Z.to_euclidean_division_equations; lia.
Qed.

Lemma EncodeFixed16_Decode (b0 b1 : Byte.byte) :
  EncodeFixed16 (DecodeFixed16 b0 b1) = [b0; b1].
Proof.
  unfold EncodeFixed16, DecodeFixed16.
  pose proof (Byte.to_N_bounded b0). pose proof (Byte.to_N_bounded b1).
  repeat f_equal; apply byte_to_N_inj; rewrite byte_of_N_to_N;
    rewrite ?N.shiftr_div_pow2; simpl (2 ^ _)%N;
    zify; Z.to_euclidean_division_equations; lia.
Qed.

Lemma DecodeFixed32_bound (b0 b1 b2 b3 : Byte.byte) :
  (DecodeFixed32 b0 b1 b2 b3 < 2^32)%N.
Proof.
  unfold DecodeFixed32.
  pose proof (Byte.to_N_bounded b0). pose proof (Byte.to_N_bounded b1).
  pose proof (Byte.to_N_bounded b2). pose proof (Byte.to_N_bounded b3).
  simpl (2 ^ _)%N. lia.
Qed.

Definition pair_bounded (p : N * N) : Prop := (p.1 < 2^32)%N /\ (p.2 < 2^16)%N.

Lemma DecodeFrom_loop_exact (k : nat) (src : bytes) (acc : list (N * N)) :
  6 * k <= length src ->
  exists Q, DecodeFrom_loop k src acc = (OK, acc ++ Q, drop (6 * k) src) /\
    length Q = k /\ Forall pair_bounded Q /\
    concat (map entry_bytes Q) = take (6 * k) src.
Proof.
  revert src acc. induction k as [|k IH]; intros src acc Hk.
  { exists []. rewrite app_nil_r. done. }
  destruct src as [|b0 [|b1 [|b2 [|b3 [|c0 [|c1 src]]]]]]; simpl in Hk; try lia.
  destruct (IH src (acc ++ [(DecodeFixed32 b0 b1 b2 b3, DecodeFixed16 c0 c1)]) ltac:(lia))
    as (Q & HQ & Hl & Hb & Hc).
  exists ((DecodeFixed32 b0 b1 b2 b3, DecodeFixed16 c0 c1) :: Q).
  replace (6 * S k) with (S (S (S (S (S (S (6 * k))))))) by lia.
  cbn [DecodeFrom_loop GetFixed32 GetFixed16 drop take]. rewrite HQ, <- app_assoc. split; [done|]. split; [simpl; by rewrite Hl|].
  split.
  - constructor; [|done]. split; [apply DecodeFixed32_bound|apply DecodeFixed16_bound].
  - cbn [map concat]. rewrite Hc. unfold entry_bytes; cbn [fst snd].
    unfold to_uint16. rewrite N.mod_small by apply DecodeFixed16_bound.
    rewrite EncodeFixed32_Decode, EncodeFixed16_Decode. done.
Qed.

Lemma narrow_entries (n : N) :
  Z.to_nat (to_int32 (Z.of_N n)) =
  if (n mod 2^32 <? 2^31)%N then N.to_nat (n mod 2^32) else 0.
Proof.
  unfold to_int32.
  assert (Hm : (Z.of_N n mod 2^32)%Z = Z.of_N (n mod 2^32)) by (rewrite N2Z.inj_mod; reflexivity).
  rewrite Hm.
  destruct (N.ltb_spec (n mod 2^32) (2^31)) as [Hl|Hl].
  - assert (Hz : (Z.of_N (n mod 2^32) <? 2^31)%Z = true) by (apply Z.ltb_lt; lia).
    rewrite Hz. rewrite <- (N2Z.id (n mod 2^32)) at 2. symmetry. apply Z_N_nat.
  - assert (Hz : (Z.of_N (n mod 2^32) <? 2^31)%Z = false) by (apply Z.ltb_ge; lia).
    rewrite Hz. pose proof (N.mod_lt n (2^32) ltac:(lia)). lia.
Qed.

Lemma DecodeFrom_reads_all_aux (P : list (N * N)) (src : bytes) :
  (N.of_nat (length src) mod 6 = 0)%N -> (N.of_nat (length src) < 6 * 2^31)%N ->
  exists Q, DecodeFrom (mkRecord P) src = (OK, mkRecord (P ++ Q), []) /\
    6 * length Q = length src /\ Forall pair_bounded Q /\
    concat (map entry_bytes Q) = src.
Proof.
  intros Hm Hlt. unfold DecodeFrom, kSizePerColumnFamily. cbv zeta.
  replace (4 + 2)%N with 6%N by reflexivity.
  rewrite Hm. simpl negb. cbv beta iota.
  rewrite narrow_entries.
  set (len := N.of_nat (length src)) in *.
  assert (Hsmall : (len / 6 mod 2^32 = len / 6)%N)
    by (apply N.mod_small; zify; Z.to_euclidean_division_equations; lia).
  rewrite Hsmall.
  assert (Hb : (len / 6 <? 2^31)%N = true)
    by (apply N.ltb_lt; zify; Z.to_euclidean_division_equations; lia).
  rewrite Hb.
  assert (H6 : 6 * N.to_nat (len / 6) = length src)
    by (subst len; zify; Z.to_euclidean_division_equations; lia).
  destruct (DecodeFrom_loop_exact (N.to_nat (len / 6)) src (cf_to_ts_sz_ (mkRecord P))
              ltac:(lia)) as (Q & HQ & Hl & Hbd & Hc).
  rewrite HQ, H6, drop_all. rewrite H6, take_ge in Hc by lia.
  exists Q. repeat split; try done. lia.
Qed.

Lemma DecodeFrom_narrowing_aux (P : list (N * N)) (src : bytes) :
  (N.of_nat (length src) mod 6 = 0)%N ->
  let m := ((N.of_nat (length src) / 6) mod 2^32)%N in
  ((m < 2^31)%N -> exists Q,
     DecodeFrom (mkRecord P) src = (OK, mkRecord (P ++ Q), drop (6 * N.to_nat m) src) /\
     length Q = N.to_nat m /\ Forall pair_bounded Q /\
     concat (map entry_bytes Q) = take (6 * N.to_nat m) src) /\
  ((2^31 <= m)%N -> DecodeFrom (mkRecord P) src = (OK, mkRecord P, src)).
Proof.
  intros Hm m. unfold DecodeFrom, kSizePerColumnFamily. cbv zeta.
  replace (4 + 2)%N with 6%N by reflexivity.
  rewrite Hm. simpl negb. cbv beta iota.
  rewrite narrow_entries. fold m. split.
  - intros Hlt. apply N.ltb_lt in Hlt. rewrite Hlt.
    assert (Hle : 6 * N.to_nat m <= length src).
    { subst m. pose proof (N.Div0.mod_le (N.of_nat (length src) / 6) (2^32)).
      zify; Z.to_euclidean_division_equations; lia. }
    destruct (DecodeFrom_loop_exact (N.to_nat m) src (cf_to_ts_sz_ (mkRecord P)) Hle)
      as (Q & HQ & Hl & Hbd & Hc).
    rewrite HQ. by exists Q.
  - intros Hge. apply N.ltb_ge in Hge. rewrite Hge. reflexivity.
Qed.

Lemma DecodeFrom_entries_aux (P Q : list (N * N)) :
  Forall pair_bounded Q -> (N.of_nat (length Q) < 2^31)%N ->
  DecodeFrom (mkRecord P) (concat (map entry_bytes Q)) = (OK, mkRecord (P ++ Q), []).
Proof.
  intros Hb Hl.
  destruct (DecodeFrom_reads_all_aux P (concat (map entry_bytes Q))) as (Q' & HQ' & _ & Hb' & Hc').
  { rewrite entry_bytes_length. zify; Z.to_euclidean_division_equations; lia. }
  { rewrite entry_bytes_length. lia. }
  rewrite HQ'.
  (* the six-byte groups determine the pairs *)
  assert (Hinj : forall A B, Forall pair_bounded A -> Forall pair_bounded B ->
            concat (map entry_bytes A) = concat (map entry_bytes B) -> A = B).
  { clear. induction A as [|[a1 a2] A IH]; intros [|[b1 b2] B] HA HB Heq; try done.
    inversion HA as [|? ? [Ha1 Ha2] HA']; inversion HB as [|? ? [Hb1 Hb2] HB']; subst.
      cbn [map concat] in Heq. unfold entry_bytes in Heq. cbn [fst snd] in Heq.
      pose proof (DecodeFixed32_Encode a1 Ha1) as E1.
      pose proof (DecodeFixed32_Encode b1 Hb1) as F1.
      unfold to_uint16 in Heq. rewrite !N.mod_small in Heq by done.
      pose proof (DecodeFixed16_Encode a2 Ha2) as E2.
      pose proof (DecodeFixed16_Encode b2 Hb2) as F2.
      unfold EncodeFixed32, EncodeFixed16 in Heq, E1, F1, E2, F2.
      cbn [app] in Heq. injection Heq as H0 H1 H2 H3 H4 H5 Hrest.
      rewrite H0, H1, H2, H3 in E1. rewrite H4, H5 in E2.
      f_equal; [f_equal; congruence|]. by apply IH. }
  by rewrite (Hinj Q' Q Hb' Hb Hc').
Qed.

Lemma DecodeFrom_loop_status (n : nat) (src : bytes) (acc : list (N * N)) :
  (DecodeFrom_loop n src acc).1.1 = OK \/
  exists msg, (DecodeFrom_loop n src acc).1.1 = Corruption msg.
Proof.
  revert src acc. induction n as [|n IH]; intros src acc; simpl; [by left|].
  destruct (GetFixed32 src) as [[cf src1]|]; [|right; by eexists].
  destruct (GetFixed16 src1) as [[ts src2]|]; [apply IH|right; by eexists].
Qed.

Lemma string_app_cons (c : Ascii.ascii) (s1 s2 : string) :
  String c s1 +:+ s2 = String c (s1 +:+ s2).
Proof. reflexivity. Qed.

Lemma string_app_assoc (s1 s2 s3 : string) : (s1 +:+ s2) +:+ s3 = s1 +:+ (s2 +:+ s3).
Proof. induction s1 as [|c s1 IH]; [done|]. by rewrite !string_app_cons, IH. Qed.

Lemma string_app_nil_r (s : string) : s +:+ "" = s.
Proof. induction s as [|c s IH]; [done|]. by rewrite string_app_cons, IH. Qed.

(** The number of newline characters in a string. *)
Fixpoint newline_count (s : string) : nat :=
  match s with
  | EmptyString => 0
  | String c s' => (if Ascii.eqb c (Ascii.ascii_of_nat 10) then 1 else 0) + newline_count s'
  end.

Lemma newline_count_app (s1 s2 : string) :
  newline_count (s1 +:+ s2) = newline_count s1 + newline_count s2.
Proof. induction s1 as [|c s1 IH]; [done|]. rewrite string_app_cons. simpl. rewrite IH. lia. Qed.

Lemma newline_count_pretty_N_go (x : N) (s : string) :
  newline_count (pretty_N_go x s) = newline_count s.
Proof.
  revert s. induction (N.lt_wf_0 x) as [x _ IH]; intros s.
  destruct (decide (x = 0%N)) as [->|Hx]; [by rewrite pretty_N_go_0|].
  rewrite pretty_N_go_step by lia. rewrite IH by (apply N.div_lt; lia).
  simpl. unfold pretty_N_char. by repeat case_match.
Qed.

Lemma newline_count_pretty (x : N) : newline_count (pretty x) = 0.
Proof.
  unfold pretty, pretty_N. case_decide; [done|].
  by rewrite newline_count_pretty_N_go.
Qed.

Lemma DebugString_fold (l : list (N * N)) (acc : string) :
  fold_left (fun oss '(cf_id, ts_sz) =>
      oss +:+ "Column family: " +:+ pretty cf_id
          +:+ ", user-defined timestamp size: " +:+ pretty ts_sz +:+ endl) l acc =
  acc +:+ fold_left (fun oss '(cf_id, ts_sz) =>
      oss +:+ "Column family: " +:+ pretty cf_id
          +:+ ", user-defined timestamp size: " +:+ pretty ts_sz +:+ endl) l "".
Proof.
  revert acc. induction l as [|[cf ts] l IH]; intros acc; simpl.
  - by rewrite string_app_nil_r.
  - rewrite IH, (IH (_ +:+ _)). by rewrite string_app_assoc.
Qed.


(** [DecodeFrom] only ever returns OK or Corruption.  A length that is
    not a multiple of 6 gives the length Corruption and leaves both the
    record and the slice as they were; below [6 * 2^31] bytes, this is the
    only way the call fails. *)
Theorem DecodeFrom_status_cases (r : UserDefinedTimestampSizeRecord) (src : bytes) :
  ((DecodeFrom r src).1.1 = OK \/ exists msg, (DecodeFrom r src).1.1 = Corruption msg) /\
  ((N.of_nat (length src) mod 6 <> 0)%N ->
     DecodeFrom r src = (Corruption (length_error (N.of_nat (length src))), r, src)) /\
  ((N.of_nat (length src) < 6 * 2^31)%N ->
     (DecodeFrom r src).1.1 = OK <-> (N.of_nat (length src) mod 6 = 0)%N).
Proof.
  assert (Hk : kSizePerColumnFamily = 6%N) by reflexivity.
  split; [|split].
  - unfold DecodeFrom. rewrite Hk. cbv zeta.
    destruct (negb _); [right; by eexists|].
    pose proof (DecodeFrom_loop_status
      (Z.to_nat (to_int32 (Z.of_N (N.of_nat (length src) / 6)))) src (cf_to_ts_sz_ r)) as Hs.
    destruct (DecodeFrom_loop _ _ _) as [[s l] rest]. exact Hs.
  - intros Hm. unfold DecodeFrom. rewrite Hk. cbv zeta.
    destruct (N.eqb_spec (N.of_nat (length src) mod 6) 0); [done|]. reflexivity.
  - intros Hlt. split.
    + intros Hok. destruct (N.eqb_spec (N.of_nat (length src) mod 6) 0) as [|Hm]; [done|].
      unfold DecodeFrom in Hok. rewrite Hk in Hok. cbv zeta in Hok.
      destruct (N.eqb_spec (N.of_nat (length src) mod 6) 0); [done|]. discriminate Hok.
    + intros Hm. destruct r as [P].
      destruct (DecodeFrom_reads_all_aux P src Hm Hlt) as (Q & HQ & _). by rewrite HQ.
Qed.

(** On an input whose length is a multiple of 6 and below [6 * 2^31],
    [DecodeFrom] succeeds, consumes the whole slice and appends one pair
    per six-byte group: the little-endian 32-bit id and 16-bit size, in
    input order. *)
Theorem DecodeFrom_reads_whole_input (P : list (N * N)) (src : bytes) :
  (N.of_nat (length src) mod 6 = 0)%N -> (N.of_nat (length src) < 6 * 2^31)%N ->
  exists Q, DecodeFrom (mkRecord P) src = (OK, mkRecord (P ++ Q), []) /\
    6 * length Q = length src /\ Forall pair_bounded Q /\
    concat (map entry_bytes Q) = src.
Proof. apply DecodeFrom_reads_all_aux. Qed.

Definition two_groups : bytes :=
  [Byte.x01; Byte.x00; Byte.x00; Byte.x00; Byte.x08; Byte.x00;
   Byte.x02; Byte.x00; Byte.x00; Byte.x00; Byte.x00; Byte.x01].

Lemma DecodeFrom_reads_whole_input_witness :
  (N.of_nat (length two_groups) mod 6 = 0)%N /\
  (N.of_nat (length two_groups) < 6 * 2^31)%N /\
  exists Q, DecodeFrom (mkRecord [(9%N, 4%N)]) two_groups =
      (OK, mkRecord ([(9%N, 4%N)] ++ Q), []) /\
    6 * length Q = length two_groups /\ Forall pair_bounded Q /\
    concat (map entry_bytes Q) = two_groups.
Proof.
  split; [reflexivity|]. split; [reflexivity|].
  apply (DecodeFrom_reads_whole_input [(9%N, 4%N)] two_groups); reflexivity.
Defined.

(** Decoding a valid input and encoding the result reproduces the input
    after [dst] when every decoded size is nonzero; if some decoded size
    is zero, [EncodeTo] fails its assertion. *)
Theorem DecodeFrom_then_EncodeTo (src dst : bytes) :
  (N.of_nat (length src) mod 6 = 0)%N -> (N.of_nat (length src) < 6 * 2^31)%N ->
  exists r, DecodeFrom empty_record src = (OK, r, []) /\
    (Forall (fun p => p.2 <> 0%N) (cf_to_ts_sz_ r) -> EncodeTo r dst = Done (dst ++ src)) /\
    (Exists (fun p => p.2 = 0%N) (cf_to_ts_sz_ r) -> EncodeTo r dst = AssertFail).
Proof.
  intros Hm Hlt.
  destruct (DecodeFrom_reads_all_aux [] src Hm Hlt) as (Q & HQ & _ & _ & Hc).
  exists (mkRecord Q). split; [exact HQ|]. unfold EncodeTo. cbn [cf_to_ts_sz_].
  rewrite EncodeTo_loop_spec. split.
  - intros Hnz. apply forallb_ts_nonzero in Hnz. by rewrite Hnz, Hc.
  - intros Hz. destruct (forallb ts_nonzero Q) eqn:Ef; [|done].
    apply forallb_ts_nonzero in Ef. apply Exists_exists in Hz as (p & Hp & H0).
    rewrite Forall_forall in Ef. by apply Ef in Hp.
Qed.

Lemma DecodeFrom_then_EncodeTo_witness :
  (N.of_nat (length two_groups) mod 6 = 0)%N /\
  (N.of_nat (length two_groups) < 6 * 2^31)%N /\
  exists r, DecodeFrom empty_record two_groups = (OK, r, []) /\
    (Forall (fun p => p.2 <> 0%N) (cf_to_ts_sz_ r) ->
       EncodeTo r [Byte.x07] = Done ([Byte.x07] ++ two_groups)) /\
    (Exists (fun p => p.2 = 0%N) (cf_to_ts_sz_ r) -> EncodeTo r [Byte.x07] = AssertFail).
Proof.
  split; [reflexivity|]. split; [reflexivity|].
  apply (DecodeFrom_then_EncodeTo two_groups [Byte.x07]); reflexivity.
Defined.

(** The loop bound of [DecodeFrom] is [static_cast<int>(size / 6)]: with
    [m] the group count modulo 2^32, it reads exactly the first [m] groups
    when [m < 2^31] and leaves the remaining bytes in the slice, and it
    reads nothing (status OK, record and slice unchanged) otherwise. *)
Theorem DecodeFrom_int_narrowing (P : list (N * N)) (src : bytes) :
  (N.of_nat (length src) mod 6 = 0)%N ->
  let m := ((N.of_nat (length src) / 6) mod 2^32)%N in
  ((m < 2^31)%N -> exists Q,
     DecodeFrom (mkRecord P) src = (OK, mkRecord (P ++ Q), drop (6 * N.to_nat m) src) /\
     length Q = N.to_nat m /\ Forall pair_bounded Q /\
     concat (map entry_bytes Q) = take (6 * N.to_nat m) src) /\
  ((2^31 <= m)%N -> DecodeFrom (mkRecord P) src = (OK, mkRecord P, src)).
Proof. apply DecodeFrom_narrowing_aux. Qed.

Lemma DecodeFrom_int_narrowing_witness :
  (N.of_nat (length two_groups) mod 6 = 0)%N /\
  let m := ((N.of_nat (length two_groups) / 6) mod 2^32)%N in
  ((m < 2^31)%N -> exists Q,
     DecodeFrom (mkRecord []) two_groups =
       (OK, mkRecord ([] ++ Q), drop (6 * N.to_nat m) two_groups) /\
     length Q = N.to_nat m /\ Forall pair_bounded Q /\
     concat (map entry_bytes Q) = take (6 * N.to_nat m) two_groups) /\
  ((2^31 <= m)%N -> DecodeFrom (mkRecord []) two_groups = (OK, mkRecord [], two_groups)).
Proof.
  split; [reflexivity|].
  apply (DecodeFrom_int_narrowing [] two_groups); reflexivity.
Defined.

(** Decoding a concatenation of two valid inputs equals decoding the first
    and then decoding the second into the resulting record. *)
Theorem DecodeFrom_app (P : list (N * N)) (b1 b2 : bytes) :
  (N.of_nat (length b1) mod 6 = 0)%N -> (N.of_nat (length b2) mod 6 = 0)%N ->
  (N.of_nat (length (b1 ++ b2)) < 6 * 2^31)%N ->
  exists r1, DecodeFrom (mkRecord P) b1 = (OK, r1, []) /\
    DecodeFrom (mkRecord P) (b1 ++ b2) = DecodeFrom r1 b2.
Proof.
  intros H1 H2 Hlt. rewrite length_app in Hlt.
  destruct (DecodeFrom_reads_all_aux P b1 H1 ltac:(lia)) as (Q1 & HQ1 & Hl1 & Hb1 & Hc1).
  destruct (DecodeFrom_reads_all_aux (P ++ Q1) b2 H2 ltac:(lia))
    as (Q2 & HQ2 & Hl2 & Hb2 & Hc2).
  exists (mkRecord (P ++ Q1)). split; [exact HQ1|]. rewrite HQ2.
  rewrite <- Hc1, <- Hc2, <- concat_app, <- map_app.
  rewrite DecodeFrom_entries_aux.
  - by rewrite app_assoc.
  - by apply Forall_app.
  - rewrite length_app. lia.
Qed.

Lemma DecodeFrom_app_witness :
  (N.of_nat (length zero_group) mod 6 = 0)%N /\
  (N.of_nat (length two_groups) mod 6 = 0)%N /\
  (N.of_nat (length (zero_group ++ two_groups)) < 6 * 2^31)%N /\
  exists r1, DecodeFrom (mkRecord []) zero_group = (OK, r1, []) /\
    DecodeFrom (mkRecord []) (zero_group ++ two_groups) = DecodeFrom r1 two_groups.
Proof.
  split; [reflexivity|]. split; [reflexivity|]. split; [reflexivity|].
  apply (DecodeFrom_app [] zero_group two_groups); reflexivity.
Defined.

(** Encoding a record made of two lists of pairs equals encoding the
    first list and then the second one after it. *)
Theorem EncodeTo_app (l1 l2 : list (N * N)) (dst : bytes) :
  EncodeTo (mkRecord (l1 ++ l2)) dst =
  (b ← EncodeTo (mkRecord l1) dst; EncodeTo (mkRecord l2) b).
Proof.
  unfold EncodeTo. cbn [cf_to_ts_sz_]. revert dst.
  induction l1 as [|[cf ts] l1 IH]; intros dst; [done|].
  simpl. destruct (ts =? 0)%N; simpl; [done|]. apply IH.
Qed.

(** For fewer than 2^31 pairs with ids below 2^32 and sizes in
    [1, 65535], [EncodeTo] appends bytes that [DecodeFrom] reads back
    completely, appending exactly those pairs to the record. *)
Theorem EncodeTo_then_DecodeFrom (P r : list (N * N)) (dst : bytes) :
  Forall (fun p => (p.1 < 2^32)%N /\ (0 < p.2 < 2^16)%N) r ->
  (N.of_nat (length r) < 2^31)%N ->
  exists out, EncodeTo (mkRecord r) dst = Done (dst ++ out) /\
    DecodeFrom (mkRecord P) out = (OK, mkRecord (P ++ r), []).
Proof.
  intros Hr Hl. exists (concat (map entry_bytes r)). split.
  - unfold EncodeTo. cbn [cf_to_ts_sz_]. rewrite EncodeTo_loop_spec.
    assert (Hnz : forallb ts_nonzero r = true).
    { apply forallb_ts_nonzero. eapply Forall_impl; [exact Hr|]. intros p [_ ?]. lia. }
    by rewrite Hnz.
  - apply DecodeFrom_entries_aux; [|done].
    eapply Forall_impl; [exact Hr|]. intros p [? ?]. split; lia.
Qed.

Lemma EncodeTo_then_DecodeFrom_witness :
  Forall (fun p => (p.1 < 2^32)%N /\ (0 < p.2 < 2^16)%N) [(3%N, 8%N); (70000%N, 16%N)] /\
  (N.of_nat (length [(3%N, 8%N); (70000%N, 16%N)]) < 2^31)%N /\
  exists out, EncodeTo (mkRecord [(3%N, 8%N); (70000%N, 16%N)]) [Byte.x07] =
      Done ([Byte.x07] ++ out) /\
    DecodeFrom (mkRecord [(1%N, 4%N)]) out =
      (OK, mkRecord ([(1%N, 4%N)] ++ [(3%N, 8%N); (70000%N, 16%N)]), []).
Proof.
  assert (H : Forall (fun p => (p.1 < 2^32)%N /\ (0 < p.2 < 2^16)%N)
                [(3%N, 8%N); (70000%N, 16%N)])
    by (repeat constructor; simpl; lia).
  split; [exact H|]. split; [reflexivity|].
  apply (EncodeTo_then_DecodeFrom [(1%N, 4%N)] _ [Byte.x07] H). reflexivity.
Defined.

(** [DebugString] is empty on the empty record, is additive over the
    pairs, and writes exactly one newline per pair. *)
Theorem DebugString_lines (l1 l2 : list (N * N)) :
  DebugString (mkRecord []) = "" /\
  DebugString (mkRecord (l1 ++ l2)) = DebugString (mkRecord l1) +:+ DebugString (mkRecord l2) /\
  newline_count (DebugString (mkRecord l1)) = length l1.
Proof.
  unfold DebugString. cbn [cf_to_ts_sz_]. split; [done|]. split.
  - by rewrite fold_left_app, DebugString_fold.
  - induction l1 as [|[cf ts] l1 IH]; [done|].
    simpl. rewrite DebugString_fold, newline_count_app, IH.
    rewrite !newline_count_app, !newline_count_pretty. simpl. lia.
Qed.

End CodecExtras.

(* ------------------------------------------------------------------ *)
(** ** Further properties of the two modes *)

Module HandlerExtras.
Import Batch Recovery HandlerFacts.

(** Verification mode leaves the output slot as it was; it reports OK
    exactly when every live column family of the batch has a recorded
    size (0 when unrecorded) equal to its running size, and InvalidArgument
    otherwise. *)
Theorem verify_mode_result (batch : WriteBatch) (running_ts_sz record_ts_sz : gmap N N)
    (new_batch : option WriteBatch) :
  exists s, HandleWriteBatchTimestampSizeDifference batch running_ts_sz record_ts_sz
              kVerifyConsistency new_batch = Done (s, new_batch) /\
    (s = OK <-> forall e cf run, e ∈ batch -> entry_cf e = Some cf ->
       running_ts_sz !! cf = Some run -> default 0%N (record_ts_sz !! cf) = run) /\
    (s <> OK -> exists msg, s = InvalidArgument msg).
Proof.
  destruct (verify_cfs_spec running_ts_sz record_ts_sz (referenced_cfs batch)) as [H1 H2].
  eexists. split; [reflexivity|]. split; [|exact H2].
  rewrite H1. split.
  - intros H e cf run He Hcf Hr. apply (H cf run); [|done].
    unfold referenced_cfs. apply list_elem_of_omap. by exists e.
  - intros H cf run Hin Hr. unfold referenced_cfs in Hin.
    apply list_elem_of_omap in Hin as (e & He & Hcf). by apply (H e cf run).
Qed.

(** A successful reconciliation-mode call either leaves the output slot as
    passed, exactly when the replay rewrote no key, or transfers a new batch
    whose records are the input's mutations, in order, with the same kinds,
    column families and values; only user keys may differ. *)
Theorem reconcile_mode_keeps_mutations (batch : WriteBatch)
    (running_ts_sz record_ts_sz : gmap N N) (slot out : option WriteBatch) :
  HandleWriteBatchTimestampSizeDifference batch running_ts_sz record_ts_sz
    kReconcileInconsistency slot = Done (OK, out) ->
  (replay_transfers running_ts_sz record_ts_sz batch = false -> out = slot) /\
  (replay_transfers running_ts_sz record_ts_sz batch = true ->
   exists nb, out = Some nb /\
     map entry_skeleton nb = map entry_skeleton (List.filter is_mutation batch)).
Proof.
  unfold replay_transfers. cbn [HandleWriteBatchTimestampSizeDifference].
  destruct (Iterate running_ts_sz record_ts_sz batch init_handler) as [[s h]|] eqn:Ei;
    simpl; [|discriminate].
  destruct (status_ok s) eqn:Hs; simpl.
  - destruct s; try discriminate Hs.
    destruct (Iterate_ok_skeleton _ _ batch [] false h Ei) as (nb & d & -> & Hk & _ & _).
    simpl. destruct d; simpl.
    + intros H. injection H as <-. split; [discriminate|]. intros _. by exists nb.
    + intros H. injection H as <-. split; [done|discriminate].
  - intros H. injection H as Hs' _. subst s. discriminate Hs.
Qed.

Lemma reconcile_mode_keeps_mutations_witness :
  HandleWriteBatchTimestampSizeDifference
    [Put 1 HandlerClaims.key_ab HandlerClaims.val_v; Commit []; Delete 2 HandlerClaims.key_ab]
    HandlerClaims.running_cf1_8 ∅ kReconcileInconsistency None =
  Done (OK, Some [Put 1 (HandlerClaims.key_ab ++ repeat Byte.x00 8) HandlerClaims.val_v;
                  Delete 2 HandlerClaims.key_ab]) /\
  replay_transfers HandlerClaims.running_cf1_8 ∅
    [Put 1 HandlerClaims.key_ab HandlerClaims.val_v; Commit []; Delete 2 HandlerClaims.key_ab]
    = true /\
  ((replay_transfers HandlerClaims.running_cf1_8 ∅
     [Put 1 HandlerClaims.key_ab HandlerClaims.val_v; Commit []; Delete 2 HandlerClaims.key_ab]
     = false ->
    Some [Put 1 (HandlerClaims.key_ab ++ repeat Byte.x00 8) HandlerClaims.val_v;
          Delete 2 HandlerClaims.key_ab] = None) /\
   (replay_transfers HandlerClaims.running_cf1_8 ∅
     [Put 1 HandlerClaims.key_ab HandlerClaims.val_v; Commit []; Delete 2 HandlerClaims.key_ab]
     = true ->
    exists nb, Some [Put 1 (HandlerClaims.key_ab ++ repeat Byte.x00 8) HandlerClaims.val_v;
                     Delete 2 HandlerClaims.key_ab] = Some nb /\
      map entry_skeleton nb =
      map entry_skeleton (List.filter is_mutation
        [Put 1 HandlerClaims.key_ab HandlerClaims.val_v; Commit [];
         Delete 2 HandlerClaims.key_ab]))).
Proof.
  assert (H : HandleWriteBatchTimestampSizeDifference
    [Put 1 HandlerClaims.key_ab HandlerClaims.val_v; Commit []; Delete 2 HandlerClaims.key_ab]
    HandlerClaims.running_cf1_8 ∅ kReconcileInconsistency None =
    Done (OK, Some [Put 1 (HandlerClaims.key_ab ++ repeat Byte.x00 8) HandlerClaims.val_v;
                    Delete 2 HandlerClaims.key_ab])) by reflexivity.
  split; [exact H|]. split; [reflexivity|].
  exact (reconcile_mode_keeps_mutations _ _ _ _ _ H).
Defined.

End HandlerExtras.
